(** * Peer-dependency influencer search of the lockfile explorer

    A shallow embedding of [selectResolvedEntry], the click handler of
    [LockfileEntryDetailsView]
    (apps/lockfile-explorer-web/src/containers/LockfileEntryDetailsView/index.tsx),
    and of the graph search it runs when a peer dependency is selected.

    JavaScript objects are compared by identity and the entries of a lockfile
    refer to each other in cycles, so entries live in a heap and are named by
    references; the JavaScript [Set]s whose iteration order is observed are
    lists without duplicates in insertion order. *)

From stdpp Require Import gmap strings list fin_maps.

(** ** Data model *)

(** Modelled from the spec: the enum [IDependencyType] is declared in
    parsing/LockfileDependency, which is not among the sources; the spec
    speaks of a dependency kind "normal, peer, etc.", and the handler only
    ever compares with [PEER_DEPENDENCY]. *)
Inductive IDependencyType : Set :=
  | DEPENDENCY
  | DEV_DEPENDENCY
  | PEER_DEPENDENCY.

#[global] Instance IDependencyType_eq_dec : EqDecision IDependencyType.
Proof. solve_decision. Defined.

(** A reference to a [LockfileEntry] object (object identity). *)
Abbreviation EntryRef := nat (only parsing).

(** Modelled from the spec: the class [LockfileDependency] is declared in
    parsing/LockfileDependency; these are the fields the handler reads
    ("name, version, dependency-kind, ... an optional resolved target
    Entry"). *)
Record LockfileDependency : Set := {
  name : string;
  version : string;
  entryId : string;
  dependencyType : IDependencyType;
  resolvedEntry : option EntryRef
}.

(** Modelled from the spec: the class [LockfileEntry] is declared in
    parsing/LockfileEntry; an entry has a stable identifier, a display label,
    its outgoing dependencies, its incoming referrers and the set of names it
    carries as transitive peer dependencies. *)
Record LockfileEntry : Type := {
  rawEntryId : string;
  displayText : string;
  dependencies : list LockfileDependency;
  referrers : list EntryRef;
  transitivePeerDependencies : gset string
}.

(** The object graph: the entries that exist, by reference. *)
Abbreviation Heap := (gmap nat LockfileEntry) (only parsing).

Definition blankEntry : LockfileEntry :=
  {| rawEntryId := EmptyString; displayText := EmptyString; dependencies := [];
     referrers := []; transitivePeerDependencies := ∅ |}.

(** Following a reference.  A JavaScript reference always leads to an object;
    a reference that the heap does not hold is read as an entry without
    dependencies and without referrers. *)
Definition deref (h : Heap) (e : EntryRef) : LockfileEntry :=
  default blankEntry (h !! e).

(** [enum DependencyType] and [interface IInfluencerType] of the component. *)
Inductive DependencyType : Set :=
  | Determinant
  | TransitiveReferrer.

Record IInfluencerType : Set := {
  entry : EntryRef;
  type : DependencyType
}.

(** What the handler writes to the console. *)
Inductive ConsoleMessage : Set :=
  | NoResolvedEntry (dependencyToTrace : LockfileDependency)
  | DependencyToTrace (dependencyToTrace : LockfileDependency)
  | MissingTransitivePeerDependencies
      (dependencyToTrace : LockfileDependency) (referrer currEntry : EntryRef).

(** [Set.prototype.add] on a set that is later iterated: a new element goes
    to the end, an element already present changes nothing. *)
Definition Set_add (x : EntryRef) (s : list EntryRef) : list EntryRef :=
  if decide (x ∈ s) then s else s ++ [x].

(** ** The search *)

(** The local variables of the search, the heap it reads and the console it
    writes to.  The array [stack] is kept with its last element first, so
    that [push] and [pop] work on the head of the list. *)
Record SearchState : Type := {
  heap : Heap;
  console : list ConsoleMessage;
  stack : list EntryRef;
  determinants : list EntryRef;
  transitiveReferrers : list EntryRef;
  visitedNodes : gset nat
}.

Definition determinants_add (r : EntryRef) (st : SearchState) : SearchState :=
  {| heap := heap st; console := console st; stack := stack st;
     determinants := Set_add r (determinants st);
     transitiveReferrers := transitiveReferrers st;
     visitedNodes := visitedNodes st |}.

Definition transitiveReferrers_add (r : EntryRef) (st : SearchState) : SearchState :=
  {| heap := heap st; console := console st; stack := stack st;
     determinants := determinants st;
     transitiveReferrers := Set_add r (transitiveReferrers st);
     visitedNodes := visitedNodes st |}.

Definition console_error (m : ConsoleMessage) (st : SearchState) : SearchState :=
  {| heap := heap st; console := console st ++ [m]; stack := stack st;
     determinants := determinants st;
     transitiveReferrers := transitiveReferrers st;
     visitedNodes := visitedNodes st |}.

(** [stack.push(referrer); visitedNodes.add(referrer);] *)
Definition push_and_mark (r : EntryRef) (st : SearchState) : SearchState :=
  {| heap := heap st; console := console st; stack := r :: stack st;
     determinants := determinants st;
     transitiveReferrers := transitiveReferrers st;
     visitedNodes := {[r]} ∪ visitedNodes st |}.

(** [const currEntry = stack.pop()] leaves the rest of the stack. *)
Definition set_stack (s : list EntryRef) (st : SearchState) : SearchState :=
  {| heap := heap st; console := console st; stack := s;
     determinants := determinants st;
     transitiveReferrers := transitiveReferrers st;
     visitedNodes := visitedNodes st |}.

(** Lines 69-75: the loop over [referrer.dependencies] that stops at the
    first dependency with the traced name; the result is [hasDependency]. *)
Fixpoint hasDependency (target : string) (deps : list LockfileDependency) : bool :=
  match deps with
  | [] => false
  | dependency :: deps' =>
      if decide (name dependency = target) then true
      else hasDependency target deps'
  end.

(** Lines 93-98: the inner loop, which pushes the referrers that are not
    yet visited. *)
Fixpoint push_unvisited (rs : list EntryRef) (st : SearchState) : SearchState :=
  match rs with
  | [] => st
  | referrer :: rs' =>
      push_unvisited rs'
        (if decide (referrer ∈ visitedNodes st) then st
         else push_and_mark referrer st)
  end.

(** Lines 68-99: the body of the loop over [currEntry.referrers], for one
    [referrer].  The inner loop of lines 93-98 runs over
    [currEntry.referrers]. *)
Definition examine (dependencyToTrace : LockfileDependency)
    (currEntry referrer : EntryRef) (st : SearchState) : SearchState :=
  let r := deref (heap st) referrer in
  if hasDependency (name dependencyToTrace) (dependencies r) then
    determinants_add referrer st
  else
    let st1 :=
      if decide (name dependencyToTrace ∈ transitivePeerDependencies r) then
        transitiveReferrers_add referrer st
      else
        console_error
          (MissingTransitivePeerDependencies dependencyToTrace referrer currEntry)
          st in
    push_unvisited (referrers (deref (heap st1) currEntry)) st1.

(** Lines 67-100: [for (const referrer of currEntry.referrers)]. *)
Fixpoint for_referrers (dependencyToTrace : LockfileDependency)
    (currEntry : EntryRef) (rs : list EntryRef) (st : SearchState) : SearchState :=
  match rs with
  | [] => st
  | referrer :: rs' =>
      for_referrers dependencyToTrace currEntry rs'
        (examine dependencyToTrace currEntry referrer st)
  end.

Definition visit (dependencyToTrace : LockfileDependency)
    (currEntry : EntryRef) (st : SearchState) : SearchState :=
  for_referrers dependencyToTrace currEntry
    (referrers (deref (heap st) currEntry)) st.

(** Lines 64-102: [while (stack.length)].  The fuel counts the tests of the
    loop condition; [None] means that the fuel ran out. *)
Fixpoint while_loop (dependencyToTrace : LockfileDependency)
    (fuel : nat) (st : SearchState) : option SearchState :=
  match fuel with
  | O => None
  | S fuel' =>
      match stack st with
      | [] => Some st
      | currEntry :: rest =>
          while_loop dependencyToTrace fuel'
            (visit dependencyToTrace currEntry (set_stack rest st))
      end
  end.

(** The entries that [stack.pop()] returns, in the order of the run. *)
Fixpoint pop_trace (dependencyToTrace : LockfileDependency)
    (fuel : nat) (st : SearchState) : list EntryRef :=
  match fuel with
  | O => []
  | S fuel' =>
      match stack st with
      | [] => []
      | currEntry :: rest =>
          currEntry ::
          pop_trace dependencyToTrace fuel'
            (visit dependencyToTrace currEntry (set_stack rest st))
      end
  end.

(** The loop as a relation: from [st] the loop pops the entries [trace], in
    this order, and ends in [fin]. *)
Inductive loop_pops (dependencyToTrace : LockfileDependency) :
    SearchState → list EntryRef → SearchState → Prop :=
  | loop_pops_done st :
      stack st = [] → loop_pops dependencyToTrace st [] st
  | loop_pops_step st currEntry rest trace fin :
      stack st = currEntry :: rest →
      loop_pops dependencyToTrace
        (visit dependencyToTrace currEntry (set_stack rest st)) trace fin →
      loop_pops dependencyToTrace st (currEntry :: trace) fin.

(** Lines 59-63: the state in which the loop starts. *)
Definition search_start (h : Heap) (out : list ConsoleMessage)
    (selectedEntry : EntryRef) : SearchState :=
  {| heap := h; console := out; stack := [selectedEntry];
     determinants := []; transitiveReferrers := [];
     visitedNodes := {[selectedEntry]} ∪ ∅ |}.

(** Lines 103-115: the list built from the two sets. *)
Definition collect_influencers (st : SearchState) : list IInfluencerType :=
  ((λ determinant, {| entry := determinant; type := Determinant |})
     <$> determinants st)
  ++ ((λ referrer, {| entry := referrer; type := TransitiveReferrer |})
     <$> transitiveReferrers st).

(** All the references that occur in a list of referrers of the heap.  Only
    these can ever be pushed, which bounds the number of iterations. *)
Definition referrer_edges (h : Heap) : list EntryRef :=
  concat (map (λ p, referrers p.2) (map_to_list h)).

Definition search_fuel (h : Heap) : nat := S (S (length (referrer_edges h))).

(** The search as the handler runs it, and the entries it pops. *)
Definition search (h : Heap) (dependencyToTrace : LockfileDependency)
    (out : list ConsoleMessage) (selectedEntry : EntryRef) : option SearchState :=
  while_loop dependencyToTrace (search_fuel h)
    (search_start h out selectedEntry).

Definition popped (h : Heap) (dependencyToTrace : LockfileDependency)
    (out : list ConsoleMessage) (selectedEntry : EntryRef) : list EntryRef :=
  pop_trace dependencyToTrace (search_fuel h)
    (search_start h out selectedEntry).

(** ** The click handler *)

(** Actions sent to the store. *)
Inductive Action : Set :=
  | pushToStack (e : EntryRef).

(** What the handler can read and change: the heap, the selected entry (from
    the store), the two state variables of the component, the actions it has
    dispatched and the console. *)
Record App : Type := {
  graph : Heap;
  selectedEntry : option EntryRef;
  inspectDependency : option LockfileDependency;
  influencers : list IInfluencerType;
  dispatched : list Action;
  output : list ConsoleMessage
}.

Definition dispatch (a : Action) (app : App) : App :=
  {| graph := graph app; selectedEntry := selectedEntry app;
     inspectDependency := inspectDependency app;
     influencers := influencers app;
     dispatched := dispatched app ++ [a]; output := output app |}.

Definition console_write (m : ConsoleMessage) (app : App) : App :=
  {| graph := graph app; selectedEntry := selectedEntry app;
     inspectDependency := inspectDependency app;
     influencers := influencers app;
     dispatched := dispatched app; output := output app ++ [m] |}.

Definition setInspectDependency (d : option LockfileDependency) (app : App) : App :=
  {| graph := graph app; selectedEntry := selectedEntry app;
     inspectDependency := d;
     influencers := influencers app;
     dispatched := dispatched app; output := output app |}.

(** After the search: the heap and the console are the ones the search
    leaves, and [setInfluencers] stores the list. *)
Definition setInfluencers (fin : SearchState) (app : App) : App :=
  {| graph := heap fin; selectedEntry := selectedEntry app;
     inspectDependency := inspectDependency app;
     influencers := collect_influencers fin;
     dispatched := dispatched app; output := console fin |}.

(** Line 42: [inspectDependency && inspectDependency.entryId ===
    dependencyToTrace.entryId]. *)
Definition same_as_inspected (inspected : option LockfileDependency)
    (dependencyToTrace : LockfileDependency) : bool :=
  match inspected with
  | Some d => bool_decide (entryId d = entryId dependencyToTrace)
  | None => false
  end.

(** Lines 41-118.  [None] only if the loop ran out of fuel, which
    [search_fuel] excludes (see [search_final]). *)
Definition selectResolvedEntry (dependencyToTrace : LockfileDependency)
    (app : App) : option App :=
  if same_as_inspected (inspectDependency app) dependencyToTrace then
    match resolvedEntry dependencyToTrace with
    | Some e => Some (dispatch (pushToStack e) app)
    | None => Some (console_write (NoResolvedEntry dependencyToTrace) app)
    end
  else
    match selectedEntry app with
    | Some selected =>
        let app1 :=
          setInspectDependency (Some dependencyToTrace)
            (console_write (DependencyToTrace dependencyToTrace) app) in
        if decide (dependencyType dependencyToTrace ≠ PEER_DEPENDENCY) then
          Some app1
        else
          match search (graph app1) dependencyToTrace (output app1) selected with
          | Some fin => Some (setInfluencers fin app1)
          | None => None
          end
    | None => Some app
    end.

(** ** How a referrer is classified *)

(** The referrer declares a dependency with the traced name. *)
Definition declares (d : LockfileDependency) (h : Heap) (r : EntryRef) : bool :=
  hasDependency (name d) (dependencies (deref h r)).

(** The referrer lists the traced name among its transitive peer
    dependencies. *)
Definition carries (d : LockfileDependency) (h : Heap) (r : EntryRef) : bool :=
  bool_decide (name d ∈ transitivePeerDependencies (deref h r)).

(** The console output of [examine] for one referrer, and of [visit] for one
    popped entry. *)
Definition diagnostic_of (d : LockfileDependency) (h : Heap)
    (currEntry r : EntryRef) : list ConsoleMessage :=
  if declares d h r || carries d h r then []
  else [MissingTransitivePeerDependencies d r currEntry].

Definition diagnostics (d : LockfileDependency) (h : Heap)
    (currEntry : EntryRef) : list ConsoleMessage :=
  flat_map (diagnostic_of d h currEntry) (referrers (deref h currEntry)).

(** The trace that examining the referrer [r] of the popped [currEntry]
    leaves in the state [st]: [r] is in the set of its class, or the console
    has the diagnostic about it. *)
Definition examined (d : LockfileDependency) (h : Heap) (st : SearchState)
    (currEntry r : EntryRef) : Prop :=
  if declares d h r then r ∈ determinants st
  else if carries d h r then r ∈ transitiveReferrers st
  else MissingTransitivePeerDependencies d r currEntry ∈ console st.

(** [st'] is [st] after some pushes of entries of [R] that were not visited:
    the stack grows at its top by distinct fresh entries, which are marked. *)
Definition pushed (R : list EntryRef) (st st' : SearchState) : Prop :=
  ∃ news : list EntryRef,
    stack st' = news ++ stack st
    ∧ visitedNodes st' = list_to_set news ∪ visitedNodes st
    ∧ NoDup news
    ∧ (∀ x, x ∈ news → (x ∉ visitedNodes st) ∧ x ∈ R).

(** What holds between two iterations of the loop, where [P] lists the
    entries popped so far, in order. *)
Record Inv (g : Heap) (d : LockfileDependency) (root : EntryRef)
    (out0 : list ConsoleMessage) (P : list EntryRef) (st : SearchState) : Prop := {
  inv_heap : heap st = g;
  inv_console : console st = out0 ++ flat_map (diagnostics d g) P;
  inv_nodup : NoDup (P ++ stack st);
  inv_visited : ∀ x, x ∈ visitedNodes st ↔ x ∈ P ++ stack st;
  inv_edges : ∀ x, x ∈ P ++ stack st → x = root ∨ x ∈ referrer_edges g;
  inv_det_nodup : NoDup (determinants st);
  inv_det : ∀ r, r ∈ determinants st
                 ↔ ∃ c, c ∈ P ∧ r ∈ referrers (deref g c)
                        ∧ declares d g r = true;
  inv_tr_nodup : NoDup (transitiveReferrers st);
  inv_tr : ∀ r, r ∈ transitiveReferrers st
                ↔ ∃ c, c ∈ P ∧ r ∈ referrers (deref g c)
                       ∧ declares d g r = false ∧ carries d g r = true;
  inv_closed : ∀ c r r', c ∈ P → r ∈ referrers (deref g c) →
                 declares d g r = false →
                 r' ∈ referrers (deref g c) → r' ∈ visitedNodes st
}.

(** The number of entries that can still be popped. *)
Definition remaining (g : Heap) (P : list EntryRef) : nat :=
  S (length (referrer_edges g)) - length P.

(** The handler's state with another heap. *)
Definition with_graph (h : Heap) (app : App) : App :=
  {| graph := h; selectedEntry := selectedEntry app;
     inspectDependency := inspectDependency app;
     influencers := influencers app;
     dispatched := dispatched app; output := output app |}.

(** ** Example graphs *)

(** The traced peer dependency, a regular dependency of the same name, and
    an unrelated regular dependency. *)
Definition PeerLib : LockfileDependency :=
  {| name := "PeerLib"; version := "^1.0.0"; entryId := "";
     dependencyType := PEER_DEPENDENCY; resolvedEntry := None |}%string.

Definition PeerLib_declared : LockfileDependency :=
  {| name := "PeerLib"; version := "1.2.0"; entryId := "/PeerLib/1.2.0";
     dependencyType := DEPENDENCY; resolvedEntry := None |}%string.

Definition lodash : LockfileDependency :=
  {| name := "lodash"; version := "4.17.21"; entryId := "/lodash/4.17.21";
     dependencyType := DEPENDENCY; resolvedEntry := None |}%string.

Definition mk_entry (label : string) (deps : list LockfileDependency)
    (refs : list EntryRef) (transitive : list string) : LockfileEntry :=
  {| rawEntryId := label; displayText := label; dependencies := deps;
     referrers := refs; transitivePeerDependencies := list_to_set transitive |}.

(** Root (0) has the peer dependency PeerLib and the referrers X (1), which
    declares PeerLib, and Y (2), which only carries it. *)
Definition graph_XY : Heap :=
  list_to_map
    [ (0, mk_entry "Root" [PeerLib; lodash] [1; 2] []);
      (1, mk_entry "X" [PeerLib_declared] [] []);
      (2, mk_entry "Y" [] [] ["PeerLib"]) ]%string.

(** The same graph with the referrers of Root in the other order. *)
Definition graph_YX : Heap :=
  list_to_map
    [ (0, mk_entry "Root" [PeerLib; lodash] [2; 1] []);
      (1, mk_entry "X" [PeerLib_declared] [] []);
      (2, mk_entry "Y" [] [] ["PeerLib"]) ]%string.

(** Root (0) is referred to by T (1), which carries PeerLib; T is referred
    to by D (2), which declares it. *)
Definition graph_chain : Heap :=
  list_to_map
    [ (0, mk_entry "Root" [PeerLib] [1] []);
      (1, mk_entry "T" [] [2] ["PeerLib"]);
      (2, mk_entry "D" [PeerLib_declared] [] []) ]%string.

(** Root (0) is referred to by D (1), which declares PeerLib, and by T (2),
    which carries it; D is referred to by E (3), which declares PeerLib and
    refers to nothing else. *)
Definition graph_sibling : Heap :=
  list_to_map
    [ (0, mk_entry "Root" [PeerLib] [1; 2] []);
      (1, mk_entry "D" [PeerLib_declared] [3] []);
      (2, mk_entry "T" [] [] ["PeerLib"]);
      (3, mk_entry "E" [PeerLib_declared] [] []) ]%string.

(** Root (0) is referred to by T (1), which carries PeerLib, and by N (2),
    which neither declares nor carries it; N is a referrer of T as well. *)
Definition graph_twice : Heap :=
  list_to_map
    [ (0, mk_entry "Root" [PeerLib] [1; 2] []);
      (1, mk_entry "T" [] [2] ["PeerLib"]);
      (2, mk_entry "N" [lodash] [] []) ]%string.

(** Root (0) is referred to by A (1); A and B (2) are referrers of each
    other; both carry PeerLib. *)
Definition graph_cycle : Heap :=
  list_to_map
    [ (0, mk_entry "Root" [PeerLib] [1] []);
      (1, mk_entry "A" [] [2] ["PeerLib"]);
      (2, mk_entry "B" [] [1] ["PeerLib"]) ]%string.

(** An entry that nothing refers to. *)
Definition graph_alone : Heap :=
  list_to_map [ (0, mk_entry "Root" [PeerLib] [] []) ]%string.

(** The component with Root selected and nothing inspected yet. *)
Definition app_start (h : Heap) : App :=
  {| graph := h; selectedEntry := Some 0; inspectDependency := None;
     influencers := []; dispatched := []; output := [] |}.

(** The component after a click on the peer dependency PeerLib of Root in
    [graph_XY]. *)
Definition app_after_PeerLib : App :=
  default (app_start graph_XY)
    (selectResolvedEntry PeerLib (app_start graph_XY)).

(** ** What the search reaches *)

(** [b] is a referrer of [a]. *)
Definition referrer_of (g : Heap) (a b : EntryRef) : Prop :=
  b ∈ referrers (deref g a).

(** [b] is a referrer of [a] that does not declare the traced name. *)
Definition passes_on (g : Heap) (d : LockfileDependency)
    (a b : EntryRef) : Prop :=
  b ∈ referrers (deref g a) ∧ declares d g b = false.

(** The entries whose referrers the search examines: the selected entry,
    and every referrer of such an entry one of whose referrers does not
    declare the traced name. *)
Inductive expanded (g : Heap) (d : LockfileDependency) (root : EntryRef) :
    EntryRef → Prop :=
  | expanded_root : expanded g d root root
  | expanded_referrer c r r' :
      expanded g d root c →
      r ∈ referrers (deref g c) →
      declares d g r = false →
      r' ∈ referrers (deref g c) →
      expanded g d root r'.

(** The state of the search without the console. *)
Definition silent (st : SearchState) : SearchState :=
  {| heap := heap st; console := []; stack := stack st;
     determinants := determinants st;
     transitiveReferrers := transitiveReferrers st;
     visitedNodes := visitedNodes st |}.

(** ** The rest of the component *)

#[global] Instance DependencyType_eq_dec : EqDecision DependencyType.
Proof. solve_decision. Defined.

(** Lines 31-32: the state variables when the component is mounted. *)
Definition mount (h : Heap) (selected : option EntryRef) : App :=
  {| graph := h; selectedEntry := selected; inspectDependency := None;
     influencers := []; dispatched := []; output := [] |}.

(** Lines 34-38: the effect that runs when [selectedEntry] has changed. *)
Definition useEffect_selectedEntry (app : App) : App :=
  match selectedEntry app with
  | Some _ => setInspectDependency None app
  | None => app
  end.

(** Lines 122-127. *)
Definition selectResolvedReferencer (referrer : EntryRef) (app : App) : App :=
  dispatch (pushToStack referrer) app.

(** What [renderPeerDependencies] shows: nothing, one of its two notices, or
    the entries of the two lists (an empty list is shown as "(none)"). *)
Inductive PeerDependenciesView : Set :=
  | Nothing
  | NoPeerDependencies
  | SelectAPeerDependency
  | InfluencerList (shownDeterminants shownTransitiveReferrers : list EntryRef).

(** Lines 171-232. *)
Definition renderPeerDependencies (app : App) : PeerDependenciesView :=
  match selectedEntry app with
  | None => Nothing
  | Some selected =>
      let peerDeps :=
        filter (λ dep, dependencyType dep = PEER_DEPENDENCY)
          (dependencies (deref (graph app) selected)) in
      if decide (length peerDeps = 0) then NoPeerDependencies
      else
        match inspectDependency app with
        | None => SelectAPeerDependency
        | Some inspected =>
            if decide (dependencyType inspected ≠ PEER_DEPENDENCY) then
              SelectAPeerDependency
            else
              InfluencerList
                (entry <$> filter (λ inf, type inf = Determinant)
                             (influencers app))
                (entry <$> filter (λ inf, type inf = TransitiveReferrer)
                             (influencers app))
        end
  end.

(** The store gives the component another selected entry. *)
Definition set_selectedEntry (selected : option EntryRef) (app : App) : App :=
  {| graph := graph app; selectedEntry := selected;
     inspectDependency := inspectDependency app;
     influencers := influencers app;
     dispatched := dispatched app; output := output app |}.

(** What can happen to the mounted component: a click on a dependency of the
    selected entry, a click on a referrer or on a listed influencer, and a
    new selected entry from the store, after which the effect of lines 34-38
    runs (it does not run when the selected entry is the same). *)
Inductive Event : Set :=
  | ClickDependency (d : LockfileDependency)
  | ClickReferrer (referrer : EntryRef)
  | Selected (selected : option EntryRef).

Definition handle (ev : Event) (app : App) : option App :=
  match ev with
  | ClickDependency d => selectResolvedEntry d app
  | ClickReferrer referrer => Some (selectResolvedReferencer referrer app)
  | Selected selected =>
      if decide (selected = selectedEntry app) then Some app
      else Some (useEffect_selectedEntry (set_selectedEntry selected app))
  end.

Fixpoint handle_all (evs : list Event) (app : App) : option App :=
  match evs with
  | [] => Some app
  | ev :: evs' =>
      match handle ev app with
      | Some app' => handle_all evs' app'
      | None => None
      end
  end.


(** Root (0) is referred to by D (1) and E (2), which both declare
    PeerLib; E is referred to by F (3). *)
Definition graph_determinants : Heap :=
  list_to_map
    [ (0, mk_entry "Root" [PeerLib] [1; 2] []);
      (1, mk_entry "D" [PeerLib_declared] [] []);
      (2, mk_entry "E" [lodash; PeerLib_declared] [3] []);
      (3, mk_entry "F" [] [] ["PeerLib"]) ]%string.

(** The peer dependency PeerLib as another entry declares it. *)
Definition PeerLib_elsewhere : LockfileDependency :=
  {| name := "PeerLib"; version := "^2.0.0"; entryId := "peer:PeerLib";
     dependencyType := PEER_DEPENDENCY; resolvedEntry := Some 7 |}%string.

(** ** Lemmas on the sets *)

Lemma hasDependency_spec target deps :
  hasDependency target deps = true ↔ ∃ dep, dep ∈ deps ∧ name dep = target.
Proof.
  induction deps as [|dep deps IH]; simpl.
  - split; [discriminate | intros (x & Hx & _); inversion Hx].
  - case_decide as Hname.
    + split; [intros _ | done]. exists dep. split; [left | done].
    + rewrite IH. split.
      * intros (x & Hx & Hn). exists x. split; [by right | done].
      * intros (x & Hx & Hn). apply elem_of_cons in Hx as [-> | Hx]; [done |].
        by exists x.
Qed.

Lemma Set_add_elem x y s : y ∈ Set_add x s ↔ y = x ∨ y ∈ s.
Proof.
  unfold Set_add. case_decide as Hin.
  - split; [by right | intros [-> | ?]; done].
  - rewrite elem_of_app, list_elem_of_singleton. tauto.
Qed.

Lemma Set_add_NoDup x s : NoDup s → NoDup (Set_add x s).
Proof.
  intros Hs. unfold Set_add. case_decide as Hin; [done |].
  apply NoDup_app. split_and!; [done | | apply NoDup_singleton].
  intros y Hy ->%list_elem_of_singleton. done.
Qed.

(** ** The inner loop *)

Lemma push_unvisited_heap rs st : heap (push_unvisited rs st) = heap st.
Proof.
  revert st. induction rs as [|r rs IH]; intros st; simpl; [done |].
  rewrite IH. by case_decide.
Qed.

Lemma push_unvisited_console rs st : console (push_unvisited rs st) = console st.
Proof.
  revert st. induction rs as [|r rs IH]; intros st; simpl; [done |].
  rewrite IH. by case_decide.
Qed.

Lemma push_unvisited_determinants rs st :
  determinants (push_unvisited rs st) = determinants st.
Proof.
  revert st. induction rs as [|r rs IH]; intros st; simpl; [done |].
  rewrite IH. by case_decide.
Qed.

Lemma push_unvisited_transitiveReferrers rs st :
  transitiveReferrers (push_unvisited rs st) = transitiveReferrers st.
Proof.
  revert st. induction rs as [|r rs IH]; intros st; simpl; [done |].
  rewrite IH. by case_decide.
Qed.

Lemma pushed_refl R st : pushed R st st.
Proof.
  exists []. split_and!; [done | set_solver | apply NoDup_nil_2 |].
  intros x Hx. inversion Hx.
Qed.

Lemma pushed_same R st st' :
  stack st' = stack st → visitedNodes st' = visitedNodes st → pushed R st st'.
Proof.
  intros Hs Hv. exists []. split_and!; [done | set_solver | apply NoDup_nil_2 |].
  intros x Hx. inversion Hx.
Qed.

Lemma pushed_trans R st1 st2 st3 :
  pushed R st1 st2 → pushed R st2 st3 → pushed R st1 st3.
Proof.
  intros (n1 & Hs1 & Hv1 & Hd1 & Hf1) (n2 & Hs2 & Hv2 & Hd2 & Hf2).
  exists (n2 ++ n1). split_and!.
  - by rewrite Hs2, Hs1, app_assoc.
  - rewrite Hv2, Hv1. set_solver.
  - apply NoDup_app. split_and!; [done | | done].
    intros x Hx2 Hx1. destruct (Hf2 x Hx2) as [Hnot _].
    apply Hnot. rewrite Hv1. set_solver.
  - intros x [Hx | Hx]%elem_of_app.
    + destruct (Hf2 x Hx) as [Hnot HR]. split; [| done].
      intros Hv. apply Hnot. rewrite Hv1. set_solver.
    + by apply Hf1.
Qed.

Lemma pushed_mono R R' st st' :
  (∀ x, x ∈ R → x ∈ R') → pushed R st st' → pushed R' st st'.
Proof.
  intros HR (news & Hs & Hv & Hd & Hf). exists news. split_and!; try done.
  intros x Hx. destruct (Hf x Hx). auto.
Qed.

Lemma pushed_visited R st st' x :
  pushed R st st' → x ∈ visitedNodes st → x ∈ visitedNodes st'.
Proof. intros (news & _ & Hv & _) Hx. rewrite Hv. set_solver. Qed.

Lemma push_and_mark_pushed r st :
  r ∉ visitedNodes st → pushed [r] st (push_and_mark r st).
Proof.
  intros Hr. exists [r]. split_and!; simpl.
  - done.
  - set_solver.
  - apply NoDup_singleton.
  - intros x ->%list_elem_of_singleton. split; [done | left].
Qed.

Lemma push_unvisited_pushed rs st : pushed rs st (push_unvisited rs st).
Proof.
  revert st. induction rs as [|r rs IH]; intros st; simpl.
  - apply pushed_refl.
  - case_decide as Hv.
    + eapply pushed_mono; [| apply IH]. intros x Hx. by right.
    + eapply pushed_trans.
      * eapply pushed_mono; [| by apply push_and_mark_pushed].
        intros x ->%list_elem_of_singleton. left.
      * eapply pushed_mono; [| apply IH]. intros x Hx. by right.
Qed.

Lemma push_unvisited_marks rs st x :
  x ∈ rs → x ∈ visitedNodes (push_unvisited rs st).
Proof.
  revert st. induction rs as [|r rs IH]; intros st Hx; simpl.
  - inversion Hx.
  - apply elem_of_cons in Hx as [-> | Hx]; [| by apply IH].
    eapply pushed_visited; [apply push_unvisited_pushed |].
    case_decide; [done | simpl; set_solver].
Qed.

(** ** One referrer *)

Section Step.
Variable d : LockfileDependency.

Lemma examine_unfold c r st :
  examine d c r st =
    if declares d (heap st) r then determinants_add r st
    else push_unvisited (referrers (deref (heap st) c))
           (if carries d (heap st) r then transitiveReferrers_add r st
            else console_error (MissingTransitivePeerDependencies d r c) st).
Proof.
  unfold examine, declares, carries.
  destruct (hasDependency _ _); [done |].
  destruct (decide (name d ∈ transitivePeerDependencies (deref (heap st) r)))
    as [Hin | Hout].
  - by rewrite (bool_decide_eq_true_2 _ Hin).
  - by rewrite (bool_decide_eq_false_2 _ Hout).
Qed.

Ltac examine_cases c r st :=
  rewrite (examine_unfold c r st);
  destruct (declares d (heap st) r) eqn:Hdecl;
    [| destruct (carries d (heap st) r) eqn:Hcarr ].

Lemma examine_heap c r st : heap (examine d c r st) = heap st.
Proof.
  examine_cases c r st; [done | |]; by rewrite push_unvisited_heap.
Qed.

Lemma examine_console c r st :
  console (examine d c r st) = console st ++ diagnostic_of d (heap st) c r.
Proof.
  unfold diagnostic_of.
  examine_cases c r st; simpl;
    rewrite ?push_unvisited_console; simpl; by rewrite ?app_nil_r.
Qed.

Lemma examine_determinants c r st x :
  x ∈ determinants (examine d c r st)
  ↔ x ∈ determinants st ∨ (x = r ∧ declares d (heap st) r = true).
Proof.
  examine_cases c r st; simpl; rewrite ?push_unvisited_determinants; simpl.
  - rewrite Set_add_elem. naive_solver.
  - naive_solver.
  - naive_solver.
Qed.

Lemma examine_determinants_NoDup c r st :
  NoDup (determinants st) → NoDup (determinants (examine d c r st)).
Proof.
  intros Hnd.
  examine_cases c r st; simpl; rewrite ?push_unvisited_determinants; simpl;
    auto using Set_add_NoDup.
Qed.

Lemma examine_transitiveReferrers c r st x :
  x ∈ transitiveReferrers (examine d c r st)
  ↔ x ∈ transitiveReferrers st
    ∨ (x = r ∧ declares d (heap st) r = false ∧ carries d (heap st) r = true).
Proof.
  examine_cases c r st; simpl;
    rewrite ?push_unvisited_transitiveReferrers; simpl.
  - naive_solver.
  - rewrite Set_add_elem. naive_solver.
  - naive_solver.
Qed.

Lemma examine_transitiveReferrers_NoDup c r st :
  NoDup (transitiveReferrers st) →
  NoDup (transitiveReferrers (examine d c r st)).
Proof.
  intros Hnd.
  examine_cases c r st; simpl;
    rewrite ?push_unvisited_transitiveReferrers; simpl;
    auto using Set_add_NoDup.
Qed.

(** A referrer that declares the name changes neither the stack nor the
    set of visited entries. *)
Lemma examine_determinant_no_push c r st :
  declares d (heap st) r = true →
  stack (examine d c r st) = stack st
  ∧ visitedNodes (examine d c r st) = visitedNodes st.
Proof. intros Hd. rewrite examine_unfold, Hd. done. Qed.

Lemma examine_pushed c r st :
  pushed (referrers (deref (heap st) c)) st (examine d c r st).
Proof.
  examine_cases c r st.
  - by apply pushed_same.
  - destruct (push_unvisited_pushed (referrers (deref (heap st) c))
                (transitiveReferrers_add r st)) as (news & ? & ? & ? & ?).
    by exists news.
  - destruct (push_unvisited_pushed (referrers (deref (heap st) c))
                (console_error (MissingTransitivePeerDependencies d r c) st))
      as (news & ? & ? & ? & ?).
    by exists news.
Qed.

(** A referrer that does not declare the name has every referrer of the
    popped entry marked as visited. *)
Lemma examine_marks c r st x :
  declares d (heap st) r = false →
  x ∈ referrers (deref (heap st) c) →
  x ∈ visitedNodes (examine d c r st).
Proof.
  intros Hd Hx. rewrite examine_unfold, Hd. by apply push_unvisited_marks.
Qed.

(** ** All the referrers of one popped entry *)

Lemma for_referrers_heap c rs st : heap (for_referrers d c rs st) = heap st.
Proof.
  revert st. induction rs as [|r rs IH]; intros st; simpl; [done |].
  by rewrite IH, examine_heap.
Qed.

Lemma for_referrers_console c rs st :
  console (for_referrers d c rs st)
  = console st ++ flat_map (diagnostic_of d (heap st) c) rs.
Proof.
  revert st. induction rs as [|r rs IH]; intros st; simpl.
  - by rewrite app_nil_r.
  - by rewrite IH, examine_console, examine_heap, app_assoc.
Qed.

Lemma for_referrers_determinants c rs st x :
  x ∈ determinants (for_referrers d c rs st)
  ↔ x ∈ determinants st ∨ (x ∈ rs ∧ declares d (heap st) x = true).
Proof.
  revert st. induction rs as [|r rs IH]; intros st; simpl.
  - split; [by left | intros [? | [Hx _]]; [done | inversion Hx]].
  - rewrite IH, examine_determinants, examine_heap, elem_of_cons.
    naive_solver.
Qed.

Lemma for_referrers_determinants_NoDup c rs st :
  NoDup (determinants st) → NoDup (determinants (for_referrers d c rs st)).
Proof.
  revert st. induction rs as [|r rs IH]; intros st Hnd; simpl; [done |].
  by apply IH, examine_determinants_NoDup.
Qed.

Lemma for_referrers_transitiveReferrers c rs st x :
  x ∈ transitiveReferrers (for_referrers d c rs st)
  ↔ x ∈ transitiveReferrers st
    ∨ (x ∈ rs ∧ declares d (heap st) x = false ∧ carries d (heap st) x = true).
Proof.
  revert st. induction rs as [|r rs IH]; intros st; simpl.
  - split; [by left | intros [? | [Hx _]]; [done | inversion Hx]].
  - rewrite IH, examine_transitiveReferrers, examine_heap, elem_of_cons.
    naive_solver.
Qed.

Lemma for_referrers_transitiveReferrers_NoDup c rs st :
  NoDup (transitiveReferrers st) →
  NoDup (transitiveReferrers (for_referrers d c rs st)).
Proof.
  revert st. induction rs as [|r rs IH]; intros st Hnd; simpl; [done |].
  by apply IH, examine_transitiveReferrers_NoDup.
Qed.

Lemma for_referrers_pushed c rs st :
  pushed (referrers (deref (heap st) c)) st (for_referrers d c rs st).
Proof.
  revert st. induction rs as [|r rs IH]; intros st; simpl.
  - apply pushed_refl.
  - eapply pushed_trans; [apply examine_pushed |].
    specialize (IH (examine d c r st)). by rewrite examine_heap in IH.
Qed.

Lemma for_referrers_marks c rs st r x :
  r ∈ rs → declares d (heap st) r = false →
  x ∈ referrers (deref (heap st) c) →
  x ∈ visitedNodes (for_referrers d c rs st).
Proof.
  revert st. induction rs as [|r' rs IH]; intros st Hr Hd Hx; simpl.
  - inversion Hr.
  - apply elem_of_cons in Hr as [-> | Hr].
    + eapply pushed_visited; [apply for_referrers_pushed |].
      by apply examine_marks.
    + apply (IH _ Hr); by rewrite examine_heap.
Qed.

Lemma for_referrers_determinants_only c rs st :
  (∀ r, r ∈ rs → declares d (heap st) r = true) →
  stack (for_referrers d c rs st) = stack st
  ∧ visitedNodes (for_referrers d c rs st) = visitedNodes st.
Proof.
  revert st. induction rs as [|r rs IH]; intros st Hall; simpl; [done |].
  destruct (examine_determinant_no_push c r st) as [Hs Hv].
  { apply Hall. left. }
  destruct (IH (examine d c r st)) as [Hs' Hv'].
  { intros r' Hr'. rewrite examine_heap. apply Hall. by right. }
  by rewrite Hs', Hv', Hs, Hv.
Qed.

End Step.

(** ** The whole loop *)

Lemma referrer_in_edges (h : Heap) c r :
r ∈ referrers (deref h c) → r ∈ referrer_edges h.
Proof.
unfold deref, referrer_edges. intros Hr.
destruct (h !! c) as [e|] eqn:Hc; simpl in Hr; [| inversion Hr].
apply list_elem_of_In, in_concat. exists (referrers e). split.
- apply in_map_iff. exists (c, e). split; [done |].
  by apply list_elem_of_In, elem_of_map_to_list.
- by apply list_elem_of_In.
Qed.

Section Run.
Variable g : Heap.
Variable d : LockfileDependency.
Variable root : EntryRef.
Variable out0 : list ConsoleMessage.

Lemma Inv_start : Inv g d root out0 [] (search_start g out0 root).
Proof.
  split; simpl.
  - done.
  - by rewrite app_nil_r.
  - apply NoDup_singleton.
  - intros x. rewrite list_elem_of_singleton. set_solver.
  - intros x ->%list_elem_of_singleton. by left.
  - apply NoDup_nil_2.
  - intros r. split; [intros Hr; inversion Hr |].
    intros (c & Hc & _). inversion Hc.
  - apply NoDup_nil_2.
  - intros r. split; [intros Hr; inversion Hr |].
    intros (c & Hc & _). inversion Hc.
  - intros c r r' Hc. inversion Hc.
Qed.

Lemma Inv_step P st c rest :
  Inv g d root out0 P st → stack st = c :: rest →
  Inv g d root out0 (P ++ [c]) (visit d c (set_stack rest st)).
Proof.
  intros [Hh Hout Hnd Hvis Hedg Hdn Hdet Htn Htr Hcl] Hst.
  unfold visit. set (st0 := set_stack rest st).
  assert (heap st0 = g) as Hh0 by done.
  rewrite Hh0.
  destruct (for_referrers_pushed d c (referrers (deref g c)) st0)
    as (news & Hs & Hv & Hnn & Hfresh).
  rewrite Hh0 in Hfresh. simpl in Hs, Hv, Hfresh.
  rewrite Hst in Hnd, Hvis, Hedg.
  assert (∀ x, x ∈ news → (x ∉ P) ∧ x ≠ c ∧ (x ∉ rest)) as Hnew.
  { intros x Hx. destruct (Hfresh x Hx) as [Hnv _].
    rewrite Hvis, elem_of_app, elem_of_cons in Hnv. naive_solver. }
  split.
  - by rewrite for_referrers_heap.
  - rewrite for_referrers_console, Hh0. simpl.
    rewrite Hout, flat_map_app. simpl. by rewrite app_nil_r, app_assoc.
  - rewrite Hs.
    apply NoDup_app in Hnd as (HndP & HdisP & Hndcr).
    apply NoDup_cons in Hndcr as [Hcr Hndr].
    rewrite <- app_assoc. simpl.
    apply NoDup_app. split_and!; [done | |].
    + intros x Hx. specialize (HdisP x Hx).
      rewrite elem_of_cons, elem_of_app.
      rewrite elem_of_cons in HdisP. intros [-> | [Hn | Hr]].
      * naive_solver.
      * destruct (Hnew x Hn) as [? _]. done.
      * naive_solver.
    + apply NoDup_cons. split.
      * rewrite elem_of_app. intros [Hn | Hr]; [| done].
        destruct (Hnew c Hn) as (_ & ? & _). done.
      * apply NoDup_app. split_and!; [done | | done].
        intros x Hx. by destruct (Hnew x Hx) as (_ & _ & ?).
  - intros x. rewrite Hv, Hs, elem_of_union, elem_of_list_to_set, Hvis.
    rewrite !elem_of_app, elem_of_cons, list_elem_of_singleton. tauto.
  - intros x. rewrite Hs, !elem_of_app, list_elem_of_singleton.
    intros [[HP | ->] | [Hn | Hr]].
    + apply Hedg. rewrite elem_of_app. by left.
    + apply Hedg. rewrite elem_of_app, elem_of_cons. auto.
    + right. destruct (Hfresh x Hn) as [_ HR].
      by eapply referrer_in_edges.
    + apply Hedg. rewrite elem_of_app, elem_of_cons. auto.
  - by apply for_referrers_determinants_NoDup.
  - intros r. rewrite for_referrers_determinants, Hh0. simpl. rewrite Hdet.
    split.
    + intros [(c' & Hc' & H1) | [Hr Hd]].
      * exists c'. rewrite elem_of_app. auto.
      * exists c. rewrite elem_of_app, list_elem_of_singleton. auto.
    + intros (c' & [Hc' | ->%list_elem_of_singleton]%elem_of_app & Hr & Hd).
      * left. by exists c'.
      * by right.
  - by apply for_referrers_transitiveReferrers_NoDup.
  - intros r. rewrite for_referrers_transitiveReferrers, Hh0. simpl.
    rewrite Htr. split.
    + intros [(c' & Hc' & H1) | [Hr Hd]].
      * exists c'. rewrite elem_of_app. auto.
      * exists c. rewrite elem_of_app, list_elem_of_singleton. auto.
    + intros (c' & [Hc' | ->%list_elem_of_singleton]%elem_of_app & Hr & Hd).
      * left. by exists c'.
      * by right.
  - intros c' r r' [Hc' | ->%list_elem_of_singleton]%elem_of_app Hr Hd Hr'.
    + rewrite Hv, elem_of_union. right. by apply (Hcl c' r r').
    + apply (for_referrers_marks d c _ st0 r r'); by rewrite ?Hh0.
Qed.

Lemma Inv_bound P st :
  Inv g d root out0 P st → length (P ++ stack st) ≤ S (length (referrer_edges g)).
Proof.
  intros HI.
  change (S (length (referrer_edges g)))
    with (length (root :: referrer_edges g)).
  apply submseteq_length, NoDup_submseteq; [apply (inv_nodup _ _ _ _ _ _ HI) |].
  intros x Hx. apply elem_of_cons. by apply (inv_edges _ _ _ _ _ _ HI).
Qed.

(** With enough fuel the loop ends, with an empty stack, and the invariant
    holds of all the entries it has popped. *)
Lemma while_loop_Inv fuel P st :
  Inv g d root out0 P st → remaining g P < fuel →
  ∃ fin, while_loop d fuel st = Some fin
         ∧ stack fin = []
         ∧ Inv g d root out0 (P ++ pop_trace d fuel st) fin.
Proof.
  revert P st. induction fuel as [|fuel IH]; intros P st HI Hfuel; [lia |].
  simpl. destruct (stack st) as [|c rest] eqn:Hst.
  - exists st. by rewrite app_nil_r.
  - pose proof (Inv_step P st c rest HI Hst) as HI'.
    pose proof (Inv_bound _ _ HI) as Hb.
    rewrite Hst, length_app in Hb. simpl in Hb.
    destruct (IH (P ++ [c]) (visit d c (set_stack rest st)) HI')
      as (fin & Hrun & Hemp & HIfin).
    { unfold remaining in *. rewrite length_app. simpl. lia. }
    exists fin. split_and!; [done | done |].
    by rewrite <- app_assoc in HIfin.
Qed.

(** More fuel than needed changes nothing. *)
Lemma while_loop_more fuel fuel' st fin :
  while_loop d fuel st = Some fin → fuel ≤ fuel' →
  while_loop d fuel' st = Some fin
  ∧ pop_trace d fuel' st = pop_trace d fuel st.
Proof.
  revert fuel' st. induction fuel as [|fuel IH]; intros fuel' st Hrun Hle;
    [discriminate |].
  destruct fuel' as [|fuel']; [lia |]. simpl in *.
  destruct (stack st) as [|c rest]; [done |].
  destruct (IH fuel' _ Hrun) as [-> ->]; [lia | done].
Qed.

(** A run that ends is a run of the loop, and [pop_trace] lists what it
    pops. *)
Lemma while_loop_pops fuel st fin :
  while_loop d fuel st = Some fin → loop_pops d st (pop_trace d fuel st) fin.
Proof.
  revert st. induction fuel as [|fuel IH]; intros st Hrun; [discriminate |].
  simpl in *. destruct (stack st) as [|c rest] eqn:Hst.
  - injection Hrun as <-. by apply loop_pops_done.
  - eapply loop_pops_step; [done |]. by apply IH.
Qed.

(** The loop is deterministic. *)
Lemma loop_pops_unique st trace fin trace' fin' :
  loop_pops d st trace fin → loop_pops d st trace' fin' →
  trace' = trace ∧ fin' = fin.
Proof.
  intros Hrun. revert trace' fin'.
  induction Hrun as [st Hst | st c rest trace fin Hst _ IH];
    intros trace' fin' Hrun'.
  - inversion Hrun'; subst; [done | congruence].
  - inversion Hrun' as [| ? c' rest' tr' ? Hst' Hrest]; subst; [congruence |].
    rewrite Hst in Hst'. injection Hst' as <- <-.
    destruct (IH _ _ Hrest) as [-> ->]. done.
Qed.

Lemma search_Inv fuel :
  search_fuel g ≤ fuel →
  ∃ fin, while_loop d fuel (search_start g out0 root) = Some fin
         ∧ stack fin = []
         ∧ pop_trace d fuel (search_start g out0 root)
           = pop_trace d (search_fuel g) (search_start g out0 root)
         ∧ Inv g d root out0 (pop_trace d (search_fuel g) (search_start g out0 root)) fin.
Proof.
  intros Hle.
  destruct (while_loop_Inv (search_fuel g) [] _ Inv_start)
    as (fin & Hrun & Hemp & HI).
  { unfold remaining, search_fuel. simpl. lia. }
  destruct (while_loop_more _ fuel _ _ Hrun Hle) as [Hrun' Htr].
  exists fin. split_and!; done.
Qed.

End Run.

(** ** The state in which the search ends *)

Lemma search_final g d root out0 :
  ∃ fin, search g d out0 root = Some fin
         ∧ stack fin = []
         ∧ Inv g d root out0 (popped g d out0 root) fin.
Proof.
  destruct (search_Inv g d root out0 (search_fuel g)) as (fin & H1 & H2 & _ & H3);
    [done |].
  by exists fin.
Qed.

Lemma root_popped g d root out0 : root ∈ popped g d out0 root.
Proof. unfold popped, search_fuel. simpl. left. Qed.

Section Final.
Variable g : Heap.
Variable d : LockfileDependency.
Variable root : EntryRef.
Variable out0 : list ConsoleMessage.
Variable P : list EntryRef.
Variable fin : SearchState.
Hypothesis HI : Inv g d root out0 P fin.
Hypothesis Hempty : stack fin = [].

Lemma final_visited x : x ∈ visitedNodes fin ↔ x ∈ P.
Proof. rewrite (inv_visited _ _ _ _ _ _ HI), Hempty, app_nil_r. done. Qed.

Lemma final_NoDup : NoDup P.
Proof.
  pose proof (inv_nodup _ _ _ _ _ _ HI) as Hnd.
  by rewrite Hempty, app_nil_r in Hnd.
Qed.

(** Past a referrer that does not declare the name, the search goes on: the
    referrer is popped in its turn. *)
Lemma final_follows c r :
  c ∈ P → r ∈ referrers (deref g c) → declares d g r = false → r ∈ P.
Proof.
  intros Hc Hr Hd. apply final_visited.
  by apply (inv_closed _ _ _ _ _ _ HI c r r).
Qed.

Lemma final_diagnostic c r :
  c ∈ P → r ∈ referrers (deref g c) →
  declares d g r = false → carries d g r = false →
  MissingTransitivePeerDependencies d r c ∈ console fin.
Proof.
  intros Hc Hr Hd Ht.
  rewrite (inv_console _ _ _ _ _ _ HI), elem_of_app. right.
  apply list_elem_of_In, in_flat_map. exists c.
  split; [by apply list_elem_of_In |].
  unfold diagnostics. apply in_flat_map. exists r.
  split; [by apply list_elem_of_In |].
  unfold diagnostic_of. rewrite Hd, Ht. simpl. by left.
Qed.

Lemma final_examined c r :
  c ∈ P → r ∈ referrers (deref g c) → examined d g fin c r.
Proof.
  intros Hc Hr. unfold examined.
  destruct (declares d g r) eqn:Hd; [| destruct (carries d g r) eqn:Ht].
  - apply (inv_det _ _ _ _ _ _ HI). by exists c.
  - apply (inv_tr _ _ _ _ _ _ HI). by exists c.
  - by apply final_diagnostic.
Qed.

(** Every message the search has written is the diagnostic about a referrer
    of a popped entry that neither declares nor carries the name. *)
Lemma final_console_only_diagnostics m :
  m ∈ flat_map (diagnostics d g) P →
  ∃ c r, m = MissingTransitivePeerDependencies d r c
         ∧ c ∈ P ∧ r ∈ referrers (deref g c)
         ∧ declares d g r = false ∧ carries d g r = false.
Proof.
  intros Hm. apply list_elem_of_In, in_flat_map in Hm as (c & Hc & Hm).
  unfold diagnostics in Hm. apply in_flat_map in Hm as (r & Hr & Hm).
  unfold diagnostic_of in Hm.
  destruct (declares d g r) eqn:Hd; [inversion Hm |].
  destruct (carries d g r) eqn:Ht; [inversion Hm |].
  simpl in Hm. destruct Hm as [<- | []].
  exists c, r. split_and!; try done; by apply list_elem_of_In.
Qed.

Lemma final_disjoint r : r ∈ determinants fin → r ∉ transitiveReferrers fin.
Proof.
  intros (c & _ & _ & Hd)%(inv_det _ _ _ _ _ _ HI)
         (c' & _ & _ & Hd' & _)%(inv_tr _ _ _ _ _ _ HI).
  congruence.
Qed.

End Final.

(** ** The list of influencers *)

Lemma collect_influencers_elem st i :
  i ∈ collect_influencers st
  ↔ (type i = Determinant ∧ entry i ∈ determinants st)
    ∨ (type i = TransitiveReferrer ∧ entry i ∈ transitiveReferrers st).
Proof.
  unfold collect_influencers. rewrite elem_of_app, !list_elem_of_fmap.
  destruct i as [e [|]]; simpl; split.
  - intros [(x & [= ->] & Hx) | (x & [=] & _)]. by left.
  - intros [[_ He] | [[=] _]]. left. by exists e.
  - intros [(x & [=] & _) | (x & [= ->] & Hx)]. by right.
  - intros [[[=] _] | [_ He]]. right. by exists e.
Qed.

Lemma collect_influencers_entries st :
  entry <$> collect_influencers st = determinants st ++ transitiveReferrers st.
Proof.
  unfold collect_influencers.
  rewrite fmap_app, <- !list_fmap_compose.
  by rewrite <- (list_fmap_id (determinants st)) at 2;
     rewrite <- (list_fmap_id (transitiveReferrers st)) at 2.
Qed.

Lemma push_unvisited_pushes rs st x :
  x ∈ rs → x ∉ visitedNodes st → x ∈ stack (push_unvisited rs st).
Proof.
  intros Hx Hnv.
  pose proof (push_unvisited_marks rs st x Hx) as Hm.
  destruct (push_unvisited_pushed rs st) as (news & Hs & Hv & _ & _).
  rewrite Hv, elem_of_union, elem_of_list_to_set in Hm.
  rewrite Hs, elem_of_app. destruct Hm; [by left | done].
Qed.

(** ** The handler *)

Lemma selectResolvedEntry_total d app : is_Some (selectResolvedEntry d app).
Proof.
  unfold selectResolvedEntry.
  destruct (same_as_inspected _ _); [by destruct (resolvedEntry d) |].
  destruct (selectedEntry app) as [selected|]; [| done].
  case_decide; [done |]. simpl.
  destruct (search_final (graph app) d selected
              (output app ++ [DependencyToTrace d])) as (fin & -> & _).
  done.
Qed.

Lemma selectResolvedEntry_graph d app app' :
  selectResolvedEntry d app = Some app' → graph app' = graph app.
Proof.
  unfold selectResolvedEntry.
  destruct (same_as_inspected _ _).
  { destruct (resolvedEntry d); by intros [= <-]. }
  destruct (selectedEntry app) as [selected|]; [| by intros [= <-]].
  case_decide; [by intros [= <-] |]. simpl.
  destruct (search_final (graph app) d selected
              (output app ++ [DependencyToTrace d])) as (fin & -> & _ & HI).
  intros [= <-]. simpl. apply (inv_heap _ _ _ _ _ _ HI).
Qed.

(** ** The claims *)

(** C1, as stated, fails: in [graph_chain] the referrer T of the popped Root
    does not declare PeerLib and carries it, its own referrer D is not yet
    visited, and yet D is not pushed when T is examined, nor at any later
    time: the search pops Root and T only.  (D is still examined, as a
    referrer of T, and listed as a determinant.) *)
Lemma transitive_referrer_own_referrers_not_pushed :
  let st := set_stack [] (search_start graph_chain [] 0) in
  let st' := examine PeerLib 0 1 st in
  (1 ∈ referrers (deref graph_chain 0)
   ∧ declares PeerLib graph_chain 1 = false
   ∧ carries PeerLib graph_chain 1 = true)
  ∧ (2 ∈ referrers (deref graph_chain 1) ∧ 2 ∉ visitedNodes st)
  ∧ stack st' = [1]
  ∧ popped graph_chain PeerLib [] 0 = [0; 1]
  ∧ collect_influencers <$> search graph_chain PeerLib [] 0
    = Some [ {| entry := 2; type := Determinant |};
             {| entry := 1; type := TransitiveReferrer |} ].
Proof.
  cbv zeta. split_and!.
  - compute_done.
  - reflexivity.
  - reflexivity.
  - compute_done.
  - simpl. set_solver.
  - reflexivity.
  - reflexivity.
  - reflexivity.
Qed.

(** C1 (amended): a referrer [r] of a popped entry [c] that does not declare
    the traced name and carries it among its transitive peer dependencies is
    put into the set of transitive referrers when it is examined, without a
    diagnostic, and it is itself marked as visited and, unless it was visited
    before, pushed.  At the end of the search it is listed as
    TransitiveReferrer, it has been popped in its turn, and each of its own
    referrers has been examined then: put into the set of its class or
    reported. *)
Theorem transitive_referrer_is_followed g d root out0 c r :
  c ∈ popped g d out0 root →
  r ∈ referrers (deref g c) →
  declares d g r = false →
  carries d g r = true →
  (∀ st, heap st = g →
     r ∈ transitiveReferrers (examine d c r st)
     ∧ console (examine d c r st) = console st
     ∧ r ∈ visitedNodes (examine d c r st)
     ∧ (r ∉ visitedNodes st → r ∈ stack (examine d c r st)))
  ∧ ∃ fin, search g d out0 root = Some fin
      ∧ {| entry := r; type := TransitiveReferrer |} ∈ collect_influencers fin
      ∧ r ∈ popped g d out0 root
      ∧ ∀ rr, rr ∈ referrers (deref g r) → examined d g fin r rr.
Proof.
  intros Hc Hr Hd Ht. split.
  - intros st <-. split_and!.
    + apply examine_transitiveReferrers. right. done.
    + rewrite examine_console. unfold diagnostic_of.
      by rewrite Hd, Ht, app_nil_r.
    + by apply examine_marks.
    + intros Hnv. rewrite examine_unfold, Hd, Ht.
      by apply push_unvisited_pushes.
  - destruct (search_final g d root out0) as (fin & Hrun & Hemp & HI).
    exists fin. split_and!; [done | | |].
    + apply collect_influencers_elem. right. split; [done |]. simpl.
      apply (inv_tr _ _ _ _ _ _ HI). by exists c.
    + by apply (final_follows _ _ _ _ _ _ HI Hemp c r).
    + intros rr Hrr. apply (final_examined _ _ _ _ _ _ HI); [| done].
      by apply (final_follows _ _ _ _ _ _ HI Hemp c r).
Qed.

(** The theorem at work in [graph_chain], for the popped Root and its
    referrer T. *)
Lemma transitive_referrer_is_followed_witness :
  (∀ st, heap st = graph_chain →
     1 ∈ transitiveReferrers (examine PeerLib 0 1 st)
     ∧ console (examine PeerLib 0 1 st) = console st
     ∧ 1 ∈ visitedNodes (examine PeerLib 0 1 st)
     ∧ (1 ∉ visitedNodes st → 1 ∈ stack (examine PeerLib 0 1 st)))
  ∧ ∃ fin, search graph_chain PeerLib [] 0 = Some fin
      ∧ {| entry := 1; type := TransitiveReferrer |} ∈ collect_influencers fin
      ∧ 1 ∈ popped graph_chain PeerLib [] 0
      ∧ ∀ rr, rr ∈ referrers (deref graph_chain 1) →
              examined PeerLib graph_chain fin 1 rr.
Proof.
  apply (transitive_referrer_is_followed graph_chain PeerLib 0 [] 0 1).
  - compute_done.
  - compute_done.
  - reflexivity.
  - reflexivity.
Defined.

(** What does hold of a referrer [r] of a popped entry that declares the
    traced name: examining it adds it to the determinants and changes neither
    the stack nor the visited entries, and at the end it is listed once, as
    Determinant. *)
Lemma determinant_is_listed_once g d root out0 c r :
  c ∈ popped g d out0 root →
  r ∈ referrers (deref g c) →
  declares d g r = true →
  (∀ st, heap st = g →
     r ∈ determinants (examine d c r st)
     ∧ stack (examine d c r st) = stack st
     ∧ visitedNodes (examine d c r st) = visitedNodes st)
  ∧ ∃ fin, search g d out0 root = Some fin
      ∧ {| entry := r; type := Determinant |} ∈ collect_influencers fin
      ∧ ({| entry := r; type := TransitiveReferrer |} ∉ collect_influencers fin)
      ∧ NoDup (collect_influencers fin).
Proof.
  intros Hc Hr Hd. split.
  - intros st <-. split.
    + apply examine_determinants. by right.
    + by apply examine_determinant_no_push.
  - destruct (search_final g d root out0) as (fin & Hrun & Hemp & HI).
    assert (r ∈ determinants fin) as Hin.
    { apply (inv_det _ _ _ _ _ _ HI). by exists c. }
    exists fin. split_and!; [done | | |].
    + apply collect_influencers_elem. by left.
    + rewrite collect_influencers_elem. simpl. intros [[[=] _] | [_ Ht]].
      by apply (final_disjoint _ _ _ _ _ _ HI r).
    + apply (NoDup_fmap_1 entry). rewrite collect_influencers_entries.
      apply NoDup_app. split_and!.
      * apply (inv_det_nodup _ _ _ _ _ _ HI).
      * apply (final_disjoint _ _ _ _ _ _ HI).
      * apply (inv_tr_nodup _ _ _ _ _ _ HI).
Qed.

(** C2, evaluated on [graph_sibling]: D declares PeerLib and is a referrer
    of the popped Root, next to T, which does not declare it.  Examining D
    pushes nothing, but examining T pushes all the referrers of Root, D
    among them; D is then popped and its referrer E, which is a referrer of
    no other entry, is examined and listed. *)
Theorem determinant_next_to_transitive_referrer_is_expanded :
  let st := set_stack [] (search_start graph_sibling [] 0) in
  (referrers (deref graph_sibling 0) = [1; 2]
   ∧ declares PeerLib graph_sibling 1 = true
   ∧ declares PeerLib graph_sibling 2 = false)
  ∧ stack (examine PeerLib 0 1 st) = []
  ∧ stack (visit PeerLib 0 st) = [2; 1]
  ∧ popped graph_sibling PeerLib [] 0 = [0; 2; 1]
  ∧ (∀ c, 3 ∈ referrers (deref graph_sibling c) → c = 1)
  ∧ collect_influencers <$> search graph_sibling PeerLib [] 0
    = Some [ {| entry := 1; type := Determinant |};
             {| entry := 3; type := Determinant |};
             {| entry := 2; type := TransitiveReferrer |} ].
Proof.
  cbv zeta. split_and!; try reflexivity.
  intros c Hc. unfold deref, graph_sibling in Hc. simpl in Hc.
  destruct (decide (c = 0)) as [-> | H0]; [exfalso; revert Hc; compute_done |].
  destruct (decide (c = 1)) as [-> | H1]; [done |].
  destruct (decide (c = 2)) as [-> | H2]; [exfalso; revert Hc; compute_done |].
  destruct (decide (c = 3)) as [-> | H3]; [exfalso; revert Hc; compute_done |].
  rewrite !lookup_insert_ne, lookup_empty in Hc by done.
  inversion Hc.
Qed.

(** C3, as stated, fails: in [graph_twice] the entry N neither declares nor
    carries PeerLib and is a referrer of the two popped entries Root and T;
    the search writes a diagnostic about N for each of them. *)
Lemma inconsistent_referrer_reported_twice :
  (declares PeerLib graph_twice 2 = false
   ∧ carries PeerLib graph_twice 2 = false)
  ∧ popped graph_twice PeerLib [] 0 = [0; 2; 1]
  ∧ console <$> search graph_twice PeerLib [] 0
    = Some [ MissingTransitivePeerDependencies PeerLib 2 0;
             MissingTransitivePeerDependencies PeerLib 2 1 ].
Proof. split_and!; reflexivity. Qed.

(** C3 (amended): a referrer [r] of a popped entry [c] that neither declares
    the traced name nor carries it gets one diagnostic each time it is
    examined, that is, one for every occurrence of it in the list of
    referrers of a popped entry: the console of the whole search is what it
    was before, followed by the diagnostics of the popped entries in the
    order in which they were popped.  The search is not aborted: it ends
    with an empty stack, [r] is marked as visited, pushed unless it was
    visited before, and popped in its turn, and each of its own referrers has
    been examined then. *)
Theorem inconsistent_referrer_is_reported_and_followed g d root out0 c r :
  c ∈ popped g d out0 root →
  r ∈ referrers (deref g c) →
  declares d g r = false →
  carries d g r = false →
  (∀ st, heap st = g →
     console (examine d c r st)
     = console st ++ [MissingTransitivePeerDependencies d r c]
     ∧ r ∈ visitedNodes (examine d c r st)
     ∧ (r ∉ visitedNodes st → r ∈ stack (examine d c r st)))
  ∧ ∃ fin, search g d out0 root = Some fin
      ∧ stack fin = []
      ∧ console fin
        = out0 ++ flat_map (diagnostics d g) (popped g d out0 root)
      ∧ MissingTransitivePeerDependencies d r c ∈ console fin
      ∧ r ∈ popped g d out0 root
      ∧ ∀ rr, rr ∈ referrers (deref g r) → examined d g fin r rr.
Proof.
  intros Hc Hr Hd Ht. split.
  - intros st <-. split_and!.
    + rewrite examine_console. unfold diagnostic_of. by rewrite Hd, Ht.
    + by apply examine_marks.
    + intros Hnv. rewrite examine_unfold, Hd, Ht.
      by apply push_unvisited_pushes.
  - destruct (search_final g d root out0) as (fin & Hrun & Hemp & HI).
    exists fin. split_and!; [done | done | | | |].
    + apply (inv_console _ _ _ _ _ _ HI).
    + by apply (final_diagnostic _ _ _ _ _ _ HI).
    + by apply (final_follows _ _ _ _ _ _ HI Hemp c r).
    + intros rr Hrr. apply (final_examined _ _ _ _ _ _ HI); [| done].
      by apply (final_follows _ _ _ _ _ _ HI Hemp c r).
Qed.

(** The theorem at work in [graph_twice], for the popped T and its referrer
    N. *)
Lemma inconsistent_referrer_is_reported_and_followed_witness :
  (∀ st, heap st = graph_twice →
     console (examine PeerLib 1 2 st)
     = console st ++ [MissingTransitivePeerDependencies PeerLib 2 1]
     ∧ 2 ∈ visitedNodes (examine PeerLib 1 2 st)
     ∧ (2 ∉ visitedNodes st → 2 ∈ stack (examine PeerLib 1 2 st)))
  ∧ ∃ fin, search graph_twice PeerLib [] 0 = Some fin
      ∧ stack fin = []
      ∧ console fin
        = [] ++ flat_map (diagnostics PeerLib graph_twice)
                  (popped graph_twice PeerLib [] 0)
      ∧ MissingTransitivePeerDependencies PeerLib 2 1 ∈ console fin
      ∧ 2 ∈ popped graph_twice PeerLib [] 0
      ∧ ∀ rr, rr ∈ referrers (deref graph_twice 2) →
              examined PeerLib graph_twice fin 2 rr.
Proof.
  apply (inconsistent_referrer_is_reported_and_followed
           graph_twice PeerLib 0 [] 1 2).
  - compute_done.
  - compute_done.
  - reflexivity.
  - reflexivity.
Defined.

(** C4: on every heap, cycles among the referrers included, the loop ends
    with an empty stack as soon as the fuel is at least [search_fuel], having
    popped the entries of its trace.  No entry is popped twice, the visited entries are exactly the popped ones,
    there are at most as many of them as there are references in the lists
    of referrers, plus one, and what one iteration pushes are distinct
    entries that were not visited, which it marks. *)
Theorem search_terminates g d root out0 fuel :
  search_fuel g ≤ fuel →
  (∃ fin, while_loop d fuel (search_start g out0 root) = Some fin
     ∧ stack fin = []
     ∧ loop_pops d (search_start g out0 root)
         (pop_trace d fuel (search_start g out0 root)) fin
     ∧ NoDup (pop_trace d fuel (search_start g out0 root))
     ∧ (∀ x, x ∈ visitedNodes fin
             ↔ x ∈ pop_trace d fuel (search_start g out0 root))
     ∧ length (pop_trace d fuel (search_start g out0 root))
       ≤ S (length (referrer_edges g)))
  ∧ ∀ c st, pushed (referrers (deref (heap st) c)) st (visit d c st).
Proof.
  intros Hfuel. split; [| intros c st; apply for_referrers_pushed].
  destruct (search_Inv g d root out0 fuel Hfuel)
    as (fin & Hrun & Hemp & Htrace & HI).
  exists fin. split_and!; [done | done | by apply while_loop_pops | | |];
    rewrite Htrace.
  - apply (final_NoDup _ _ _ _ _ _ HI Hemp).
  - apply (final_visited _ _ _ _ _ _ HI Hemp).
  - pose proof (Inv_bound _ _ _ _ _ _ HI) as Hb.
    by rewrite Hemp, app_nil_r in Hb.
Qed.

(** The theorem at work on the cycle of [graph_cycle], with the fuel the
    handler supplies. *)
Lemma search_terminates_witness :
  search_fuel graph_cycle ≤ 5
  ∧ (∃ fin, while_loop PeerLib 5 (search_start graph_cycle [] 0) = Some fin
       ∧ stack fin = []
       ∧ loop_pops PeerLib (search_start graph_cycle [] 0)
           (pop_trace PeerLib 5 (search_start graph_cycle [] 0)) fin
       ∧ NoDup (pop_trace PeerLib 5 (search_start graph_cycle [] 0))
       ∧ (∀ x, x ∈ visitedNodes fin
               ↔ x ∈ pop_trace PeerLib 5 (search_start graph_cycle [] 0))
       ∧ length (pop_trace PeerLib 5 (search_start graph_cycle [] 0))
         ≤ S (length (referrer_edges graph_cycle)))
    ∧ ∀ c st, pushed (referrers (deref (heap st) c)) st (visit PeerLib c st).
Proof.
  split; [vm_compute; lia |].
  apply (search_terminates graph_cycle PeerLib 0 [] 5).
  vm_compute. lia.
Defined.

(** The search on the cycle of [graph_cycle]: each entry is popped once. *)
Example search_on_cycle :
  popped graph_cycle PeerLib [] 0 = [0; 1; 2]
  ∧ collect_influencers <$> search graph_cycle PeerLib [] 0
    = Some [ {| entry := 1; type := TransitiveReferrer |};
             {| entry := 2; type := TransitiveReferrer |} ].
Proof. split; reflexivity. Qed.

(** C5: with Root selected in [graph_XY], a click on its peer dependency
    PeerLib stores exactly X as Determinant and Y as TransitiveReferrer, and
    so it does when the referrers of Root come in the other order; nothing
    is written to the console but the traced dependency. *)
Theorem example_X_determinant_Y_transitive_referrer :
  (declares PeerLib graph_XY 1 = true
   ∧ declares PeerLib graph_XY 2 = false ∧ carries PeerLib graph_XY 2 = true)
  ∧ (influencers <$> selectResolvedEntry PeerLib (app_start graph_XY)
     = Some [ {| entry := 1; type := Determinant |};
              {| entry := 2; type := TransitiveReferrer |} ])
  ∧ (influencers <$> selectResolvedEntry PeerLib (app_start graph_YX)
     = Some [ {| entry := 1; type := Determinant |};
              {| entry := 2; type := TransitiveReferrer |} ])
  ∧ (output <$> selectResolvedEntry PeerLib (app_start graph_XY)
     = Some [DependencyToTrace PeerLib])
  ∧ (determinants <$> search graph_XY PeerLib [] 0 = Some [1]
     ∧ transitiveReferrers <$> search graph_XY PeerLib [] 0 = Some [2]).
Proof.
  split_and!.
  - reflexivity.
  - reflexivity.
  - reflexivity.
  - vm_compute. reflexivity.
  - vm_compute. reflexivity.
  - vm_compute. reflexivity.
  - vm_compute. reflexivity.
  - vm_compute. reflexivity.
Qed.

(** The search from an entry without referrers: one iteration, which
    changes nothing but the stack. *)
Lemma search_no_referrers g d root out0 :
  referrers (deref g root) = [] →
  search g d out0 root = Some (set_stack [] (search_start g out0 root)).
Proof.
  intros Href. unfold search, search_fuel. simpl.
  unfold visit. simpl. by rewrite Href.
Qed.

(** C6: the search always returns: on every heap it ends in a state whose two
    sets make up the list of influencers, and the handler yields a new state
    of the component for every dependency and every state.  When the
    selected entry has no referrers both sets are empty, nothing is written
    to the console, and the handler stores the empty list. *)
Theorem search_always_returns g d root out0 :
  (∃ fin, search g d out0 root = Some fin
     ∧ stack fin = []
     ∧ collect_influencers fin
       = ((λ e, {| entry := e; type := Determinant |}) <$> determinants fin)
         ++ ((λ e, {| entry := e; type := TransitiveReferrer |})
               <$> transitiveReferrers fin))
  ∧ (referrers (deref g root) = [] →
     ∃ fin, search g d out0 root = Some fin
       ∧ determinants fin = [] ∧ transitiveReferrers fin = []
       ∧ collect_influencers fin = [] ∧ console fin = out0)
  ∧ (∀ app, is_Some (selectResolvedEntry d app))
  ∧ (∀ app, graph app = g → selectedEntry app = Some root →
       same_as_inspected (inspectDependency app) d = false →
       dependencyType d = PEER_DEPENDENCY →
       referrers (deref g root) = [] →
       ∃ app', selectResolvedEntry d app = Some app' ∧ influencers app' = []).
Proof.
  split_and!.
  - destruct (search_final g d root out0) as (fin & Hrun & Hemp & _).
    by exists fin.
  - intros Href. rewrite (search_no_referrers _ _ _ _ Href).
    by eexists.
  - apply selectResolvedEntry_total.
  - intros app <- Hsel Hsame Hpeer Href. unfold selectResolvedEntry.
    rewrite Hsame, Hsel. case_decide as Hk; [done |]. simpl.
    rewrite (search_no_referrers _ _ _ _ Href). by eexists.
Qed.

(** The theorem at work in [graph_alone], where Root has no referrers. *)
Lemma search_always_returns_witness :
  referrers (deref graph_alone 0) = []
  ∧ ∃ fin, search graph_alone PeerLib [] 0 = Some fin
      ∧ determinants fin = [] ∧ transitiveReferrers fin = []
      ∧ collect_influencers fin = [] ∧ console fin = [].
Proof.
  split; [reflexivity |].
  apply (search_always_returns graph_alone PeerLib 0 []). reflexivity.
Defined.

(** C7: when the dependency that is clicked is not a peer dependency, the
    handler ends before the search: the list of influencers and the heap are
    left as they are, at most one message is written to the console, which is
    not a diagnostic of the search, and the outcome is the same on any other
    heap, so no entry of the graph is read. *)
Theorem non_peer_dependency_skips_search d app :
  dependencyType d ≠ PEER_DEPENDENCY →
  ∃ app', selectResolvedEntry d app = Some app'
    ∧ graph app' = graph app
    ∧ influencers app' = influencers app
    ∧ (output app' = output app
       ∨ output app' = output app ++ [NoResolvedEntry d]
       ∨ output app' = output app ++ [DependencyToTrace d])
    ∧ ∀ h, selectResolvedEntry d (with_graph h app) = Some (with_graph h app').
Proof.
  intros Hkind. unfold selectResolvedEntry. simpl.
  destruct (same_as_inspected _ _).
  { destruct (resolvedEntry d); eexists; split_and!; try done; simpl; auto. }
  destruct (selectedEntry app) as [selected|].
  - case_decide; [| done].
    eexists; split_and!; try done; simpl; auto.
  - eexists; split_and!; try done; simpl; auto.
Qed.

(** The theorem at work for a click on the regular dependency lodash of
    Root. *)
Lemma non_peer_dependency_skips_search_witness :
  dependencyType lodash ≠ PEER_DEPENDENCY
  ∧ ∃ app', selectResolvedEntry lodash (app_start graph_XY) = Some app'
      ∧ graph app' = graph (app_start graph_XY)
      ∧ influencers app' = influencers (app_start graph_XY)
      ∧ (output app' = output (app_start graph_XY)
         ∨ output app' = output (app_start graph_XY) ++ [NoResolvedEntry lodash]
         ∨ output app'
           = output (app_start graph_XY) ++ [DependencyToTrace lodash])
      ∧ ∀ h, selectResolvedEntry lodash (with_graph h (app_start graph_XY))
             = Some (with_graph h app').
Proof.
  split; [discriminate |].
  apply (non_peer_dependency_skips_search lodash (app_start graph_XY)).
  discriminate.
Defined.

(** C8: the search leaves the heap as it is, after every iteration and at
    the end: every entry has the dependencies, the referrers and the
    transitive peer dependencies it had.  All the search adds to the console
    are diagnostics about referrers of popped entries that neither declare
    nor carry the traced name; the handler as a whole leaves the heap as it
    is too. *)
Theorem search_does_not_mutate_graph g d root out0 :
  (∀ c st, heap (visit d c st) = heap st)
  ∧ (∃ fin, search g d out0 root = Some fin
       ∧ heap fin = g
       ∧ (∀ e, dependencies (deref (heap fin) e) = dependencies (deref g e)
               ∧ referrers (deref (heap fin) e) = referrers (deref g e)
               ∧ transitivePeerDependencies (deref (heap fin) e)
                 = transitivePeerDependencies (deref g e))
       ∧ ∃ msgs, console fin = out0 ++ msgs
           ∧ ∀ m, m ∈ msgs →
               ∃ c r, m = MissingTransitivePeerDependencies d r c
                      ∧ c ∈ popped g d out0 root
                      ∧ r ∈ referrers (deref g c)
                      ∧ declares d g r = false ∧ carries d g r = false)
  ∧ (∀ app, ∃ app', selectResolvedEntry d app = Some app'
                    ∧ graph app' = graph app).
Proof.
  split_and!.
  - intros c st. apply for_referrers_heap.
  - destruct (search_final g d root out0) as (fin & Hrun & Hemp & HI).
    exists fin. pose proof (inv_heap _ _ _ _ _ _ HI) as Hh.
    split_and!; [done | done | by rewrite Hh |].
    exists (flat_map (diagnostics d g) (popped g d out0 root)).
    split; [apply (inv_console _ _ _ _ _ _ HI) |].
    apply final_console_only_diagnostics.
  - intros app. destruct (selectResolvedEntry_total d app) as [app' Happ].
    exists app'. split; [done |]. by eapply selectResolvedEntry_graph.
Qed.

(** C9: at the end of the search neither set has an entry twice, no entry is
    in both, and so the list of influencers names every entry at most once.
    The class of an entry is decided by its own dependencies and transitive
    peer dependencies: the determinants declare the traced name, the
    transitive referrers do not declare it and carry it. *)
Theorem partitions_disjoint_and_duplicate_free g d root out0 :
  ∃ fin, search g d out0 root = Some fin
    ∧ NoDup (determinants fin)
    ∧ NoDup (transitiveReferrers fin)
    ∧ (∀ r, r ∈ determinants fin → r ∉ transitiveReferrers fin)
    ∧ NoDup (entry <$> collect_influencers fin)
    ∧ (∀ r, r ∈ determinants fin → declares d g r = true)
    ∧ (∀ r, r ∈ transitiveReferrers fin →
            declares d g r = false ∧ carries d g r = true).
Proof.
  destruct (search_final g d root out0) as (fin & Hrun & Hemp & HI).
  exists fin. split_and!; [done | | | | | |].
  - apply (inv_det_nodup _ _ _ _ _ _ HI).
  - apply (inv_tr_nodup _ _ _ _ _ _ HI).
  - apply (final_disjoint _ _ _ _ _ _ HI).
  - rewrite collect_influencers_entries. apply NoDup_app. split_and!.
    + apply (inv_det_nodup _ _ _ _ _ _ HI).
    + apply (final_disjoint _ _ _ _ _ _ HI).
    + apply (inv_tr_nodup _ _ _ _ _ _ HI).
  - intros r (c & _ & _ & Hd)%(inv_det _ _ _ _ _ _ HI). done.
  - intros r (c & _ & _ & Hd & Ht)%(inv_tr _ _ _ _ _ _ HI). done.
Qed.

(** C10: a click on a dependency that is not a peer dependency leaves the
    stored list of influencers as it is, whatever it holds; when the click
    selects the dependency for inspection (it is not the one inspected
    already and an entry is selected) the inspected dependency changes and
    the list is the one of the earlier search. *)
Theorem non_peer_selection_keeps_influencers d app :
  dependencyType d ≠ PEER_DEPENDENCY →
  ∃ app', selectResolvedEntry d app = Some app'
    ∧ influencers app' = influencers app
    ∧ (same_as_inspected (inspectDependency app) d = false →
       is_Some (selectedEntry app) →
       inspectDependency app' = Some d).
Proof.
  intros Hkind. unfold selectResolvedEntry.
  destruct (same_as_inspected _ _).
  { destruct (resolvedEntry d); eexists; split_and!; done. }
  destruct (selectedEntry app) as [selected|].
  - case_decide; [| done]. eexists; split_and!; done.
  - eexists; split_and!; [done | done |]. by intros _ [? [=]].
Qed.

(** The theorem at work for a click on lodash after the influencers of
    PeerLib have been stored. *)
Lemma non_peer_selection_keeps_influencers_witness :
  (dependencyType lodash ≠ PEER_DEPENDENCY
   ∧ influencers app_after_PeerLib
     = [ {| entry := 1; type := Determinant |};
         {| entry := 2; type := TransitiveReferrer |} ])
  ∧ ∃ app', selectResolvedEntry lodash app_after_PeerLib = Some app'
      ∧ influencers app' = influencers app_after_PeerLib
      ∧ (same_as_inspected (inspectDependency app_after_PeerLib) lodash = false →
         is_Some (selectedEntry app_after_PeerLib) →
         inspectDependency app' = Some lodash).
Proof.
  split; [split; [discriminate | vm_compute; reflexivity] |].
  apply (non_peer_selection_keeps_influencers lodash app_after_PeerLib).
  discriminate.
Defined.

(** After the click on PeerLib, a click on the regular dependency lodash:
    lodash is inspected and the influencers of PeerLib are still stored. *)
Example stale_influencers_after_non_peer_click :
  (λ app, (inspectDependency app, influencers app))
    <$> selectResolvedEntry lodash app_after_PeerLib
  = Some (Some lodash,
          [ {| entry := 1; type := Determinant |};
            {| entry := 2; type := TransitiveReferrer |} ]).
Proof. vm_compute. reflexivity. Qed.

(** ** Which entries the search expands *)

(** An entry gets onto the stack during [for_referrers] only as a referrer
    of the popped entry, and only when one of the referrers examined does
    not declare the traced name. *)
Lemma for_referrers_stack_elem d c rs st x :
  x ∈ stack (for_referrers d c rs st) →
  x ∈ stack st
  ∨ (x ∈ referrers (deref (heap st) c)
     ∧ ∃ r, r ∈ rs ∧ declares d (heap st) r = false).
Proof.
  intros Hx.
  destruct (decide (Forall (λ r, declares d (heap st) r = true) rs))
    as [Hall | Hsome].
  - left. rewrite Forall_forall in Hall.
    destruct (for_referrers_determinants_only d c rs st Hall) as [<- _]. done.
  - apply not_Forall_Exists in Hsome; [| apply _].
    apply Exists_exists in Hsome as (r & Hr & Hd).
    simpl in Hd. apply not_true_is_false in Hd.
    destruct (for_referrers_pushed d c rs st) as (news & Hs & _ & _ & Hf).
    rewrite Hs, elem_of_app in Hx. destruct Hx as [Hn | Hold]; [| by left].
    right. split; [by apply Hf | by exists r].
Qed.

Lemma loop_pops_expanded g d root st trace fin :
  loop_pops d st trace fin →
  heap st = g →
  (∀ x, x ∈ stack st → expanded g d root x) →
  ∀ x, x ∈ trace → expanded g d root x.
Proof.
  intros Hrun. induction Hrun as [st Hst | st c rest trace fin Hst _ IH];
    intros Hh Hstack x Hx.
  - inversion Hx.
  - assert (expanded g d root c) as Hc.
    { apply Hstack. rewrite Hst. left. }
    apply elem_of_cons in Hx as [-> | Hx]; [done |].
    apply IH; [| | done].
    + unfold visit. by rewrite for_referrers_heap.
    + intros y Hy. unfold visit in Hy.
      apply for_referrers_stack_elem in Hy as [Hy | (Hy & r & Hr & Hd)];
        simpl in *.
      * apply Hstack. rewrite Hst. by right.
      * rewrite Hh in *. by apply (expanded_referrer g d root c r y).
Qed.

Lemma popped_expanded g d root out0 x :
  x ∈ popped g d out0 root ↔ expanded g d root x.
Proof.
  destruct (search_final g d root out0) as (fin & Hrun & Hemp & HI).
  split.
  - intros Hx.
    apply (loop_pops_expanded g d root (search_start g out0 root)
             (popped g d out0 root) fin); [| done | | done].
    + by apply while_loop_pops.
    + simpl. intros y ->%list_elem_of_singleton. constructor.
  - induction 1 as [| c r r' _ IH Hr Hd Hr'].
    + apply root_popped.
    + apply (final_visited _ _ _ _ _ _ HI Hemp).
      by apply (inv_closed _ _ _ _ _ _ HI c r r').
Qed.

(** The entries the search pops, and has visited when it ends, are exactly
    the expanded ones: the selected entry, and the referrers of an expanded
    entry that has a referrer which does not declare the traced name. *)
Theorem search_pops_the_expanded_entries g d root out0 :
  ∃ fin, search g d out0 root = Some fin
    ∧ ∀ x, (x ∈ popped g d out0 root ↔ expanded g d root x)
           ∧ (x ∈ visitedNodes fin ↔ expanded g d root x).
Proof.
  destruct (search_final g d root out0) as (fin & Hrun & Hemp & HI).
  exists fin. split; [done |]. intros x. split.
  - apply popped_expanded.
  - rewrite (final_visited _ _ _ _ _ _ HI Hemp). apply popped_expanded.
Qed.

(** The list of influencers, without reference to the run: an entry is
    listed as Determinant when it is a referrer of an expanded entry and
    declares the traced name, and as TransitiveReferrer when it is a referrer
    of an expanded entry, does not declare the name and carries it. *)
Theorem influencers_characterised g d root out0 :
  ∃ fin, search g d out0 root = Some fin
    ∧ ∀ i, i ∈ collect_influencers fin
           ↔ ∃ c, expanded g d root c
                  ∧ entry i ∈ referrers (deref g c)
                  ∧ ((type i = Determinant ∧ declares d g (entry i) = true)
                     ∨ (type i = TransitiveReferrer
                        ∧ declares d g (entry i) = false
                        ∧ carries d g (entry i) = true)).
Proof.
  destruct (search_final g d root out0) as (fin & Hrun & Hemp & HI).
  exists fin. split; [done |]. intros i.
  rewrite collect_influencers_elem.
  rewrite (inv_det _ _ _ _ _ _ HI), (inv_tr _ _ _ _ _ _ HI).
  split.
  - intros [(Hty & c & Hc & Hr & Hd) | (Hty & c & Hc & Hr & Hd & Ht)];
      exists c; rewrite <- (popped_expanded g d root out0); naive_solver.
  - intros (c & Hc & Hr & [(Hty & Hd) | (Hty & Hd & Ht)]);
      rewrite <- (popped_expanded g d root out0) in Hc; naive_solver.
Qed.

Lemma expanded_reachable g d root x :
  expanded g d root x → rtc (referrer_of g) root x.
Proof.
  induction 1 as [| c r r' _ IH _ _ Hr']; [apply rtc_refl |].
  by eapply rtc_r.
Qed.

(** Every influencer is an ancestor of the selected entry: it is reached
    from it by one or more steps from an entry to one of its referrers. *)
Theorem influencers_are_ancestors g d root out0 :
  ∃ fin, search g d out0 root = Some fin
    ∧ ∀ i, i ∈ collect_influencers fin → tc (referrer_of g) root (entry i).
Proof.
  destruct (search_final g d root out0) as (fin & Hrun & Hemp & HI).
  exists fin. split; [done |].
  assert (∀ c r, c ∈ popped g d out0 root → r ∈ referrers (deref g c) →
                 tc (referrer_of g) root r) as Hstep.
  { intros c r Hc%popped_expanded Hr.
    eapply tc_rtc_l; [exact (expanded_reachable g d root c Hc) |].
    by apply tc_once. }
  intros i [[_ Hi] | [_ Hi]]%collect_influencers_elem.
  - apply (inv_det _ _ _ _ _ _ HI) in Hi as (c & Hc & Hr & _). eauto.
  - apply (inv_tr _ _ _ _ _ _ HI) in Hi as (c & Hc & Hr & _). eauto.
Qed.

(** The search follows every chain of referrers that do not declare the
    traced name: the entry at the end of such a chain from the selected
    entry is popped and each of its referrers is examined, so that a referrer
    of it that declares the name is listed as Determinant. *)
Theorem chain_of_referrers_is_followed g d root out0 x :
  rtc (passes_on g d) root x →
  x ∈ popped g d out0 root
  ∧ ∃ fin, search g d out0 root = Some fin
      ∧ ∀ r, r ∈ referrers (deref g x) →
          examined d g fin x r
          ∧ (declares d g r = true →
             {| entry := r; type := Determinant |} ∈ collect_influencers fin).
Proof.
  intros Hchain.
  destruct (search_final g d root out0) as (fin & Hrun & Hemp & HI).
  assert (x ∈ popped g d out0 root) as Hx.
  { revert x Hchain.
    apply (rtc_ind_r (λ y, y ∈ popped g d out0 root) root).
    - apply root_popped.
    - intros a b _ [Hb Hd] IH.
      by apply (final_follows _ _ _ _ _ _ HI Hemp a b). }
  split; [done |]. exists fin. split; [done |]. intros r Hr.
  pose proof (final_examined _ _ _ _ _ _ HI x r Hx Hr) as Hex.
  split; [done |]. intros Hd.
  apply collect_influencers_elem. left. split; [done |]. simpl.
  unfold examined in Hex. by rewrite Hd in Hex.
Qed.

(** In [graph_chain], T passes PeerLib on from Root. *)
Lemma chain_of_referrers_is_followed_witness :
  rtc (passes_on graph_chain PeerLib) 0 1
  ∧ 1 ∈ popped graph_chain PeerLib [] 0
  ∧ ∃ fin, search graph_chain PeerLib [] 0 = Some fin
      ∧ ∀ r, r ∈ referrers (deref graph_chain 1) →
          examined PeerLib graph_chain fin 1 r
          ∧ (declares PeerLib graph_chain r = true →
             {| entry := r; type := Determinant |} ∈ collect_influencers fin).
Proof.
  assert (rtc (passes_on graph_chain PeerLib) 0 1) as Hchain.
  { apply rtc_once. split; [compute_done | reflexivity]. }
  split; [exact Hchain |].
  exact (chain_of_referrers_is_followed graph_chain PeerLib 0 [] 1 Hchain).
Defined.

(** ** When every referrer of the selected entry declares the name *)

Lemma for_referrers_declaring_determinants d c rs st :
  (∀ r, r ∈ rs → declares d (heap st) r = true) →
  NoDup (determinants st ++ rs) →
  determinants (for_referrers d c rs st) = determinants st ++ rs.
Proof.
  revert st. induction rs as [|r rs IH]; intros st Hall Hnd; simpl.
  - by rewrite app_nil_r.
  - assert (declares d (heap st) r = true) as Hd by (apply Hall; left).
    assert (r ∉ determinants st) as Hfresh.
    { apply NoDup_app in Hnd as (_ & Hdis & _). intros Hin.
      apply (Hdis r Hin). left. }
    rewrite IH.
    + rewrite examine_unfold, Hd. simpl. unfold Set_add.
      rewrite decide_False by done. by rewrite <- app_assoc.
    + intros r' Hr'. rewrite examine_heap. apply Hall. by right.
    + rewrite examine_unfold, Hd. simpl. unfold Set_add.
      rewrite decide_False by done. by rewrite <- app_assoc.
Qed.

Lemma diagnostics_none d g c :
  (∀ r, r ∈ referrers (deref g c) → declares d g r = true) →
  diagnostics d g c = [].
Proof.
  unfold diagnostics. induction (referrers (deref g c)) as [|r rs IH];
    intros Hall; simpl; [done |].
  unfold diagnostic_of at 1. rewrite (Hall r) by left. simpl.
  apply IH. intros r' Hr'. apply Hall. by right.
Qed.

(** When every referrer of the selected entry declares the traced name, the
    search stops at them: it pops the selected entry only, writes nothing,
    finds no transitive referrer, and its determinants are the referrers of
    the selected entry; when no referrer is listed twice, the list of
    influencers is the list of referrers, in its order. *)
Theorem all_referrers_declare g d root out0 :
  (∀ r, r ∈ referrers (deref g root) → declares d g r = true) →
  ∃ fin, search g d out0 root = Some fin
    ∧ popped g d out0 root = [root]
    ∧ console fin = out0
    ∧ transitiveReferrers fin = []
    ∧ (∀ r, r ∈ determinants fin ↔ r ∈ referrers (deref g root))
    ∧ (NoDup (referrers (deref g root)) →
       collect_influencers fin
       = (λ e, {| entry := e; type := Determinant |})
           <$> referrers (deref g root)).
Proof.
  intros Hall.
  set (st0 := set_stack [] (search_start g out0 root)).
  destruct (for_referrers_determinants_only d root
              (referrers (deref g root)) st0 Hall) as [Hs Hv].
  simpl in Hs.
  exists (visit d root st0).
  assert (search g d out0 root = Some (visit d root st0)) as Hrun.
  { unfold search, search_fuel. simpl. fold st0. unfold visit at 1.
    simpl. by rewrite Hs. }
  assert (popped g d out0 root = [root]) as Htr.
  { unfold popped, search_fuel. simpl. fold st0. unfold visit at 1.
    simpl. by rewrite Hs. }
  destruct (search_final g d root out0) as (fin & Hrun' & Hemp & HI).
  rewrite Hrun in Hrun'. injection Hrun' as <-. rewrite Htr in HI.
  assert (transitiveReferrers (visit d root st0) = []) as Htrs.
  { destruct (transitiveReferrers (visit d root st0)) as [|r l] eqn:Hl;
      [done |].
    assert (r ∈ transitiveReferrers (visit d root st0)) as Hin
      by (rewrite Hl; left).
    apply (inv_tr _ _ _ _ _ _ HI) in Hin
      as (c & ->%list_elem_of_singleton & Hr & Hd & _).
    rewrite (Hall r Hr) in Hd. discriminate. }
  split_and!; [done | done | | done | |].
  - rewrite (inv_console _ _ _ _ _ _ HI). simpl.
    by rewrite (diagnostics_none d g root Hall), !app_nil_r.
  - intros r. rewrite (inv_det _ _ _ _ _ _ HI). split.
    + by intros (c & ->%list_elem_of_singleton & Hr & _).
    + intros Hr. exists root. split_and!; [left | done | by apply Hall].
  - intros Hnd. unfold collect_influencers. rewrite Htrs, app_nil_r.
    f_equal. unfold visit. simpl.
    by rewrite for_referrers_declaring_determinants.
Qed.

(** In [graph_determinants] both referrers of Root declare PeerLib. *)
Lemma all_referrers_declare_witness :
  ∃ fin, search graph_determinants PeerLib [] 0 = Some fin
    ∧ popped graph_determinants PeerLib [] 0 = [0]
    ∧ console fin = []
    ∧ transitiveReferrers fin = []
    ∧ (∀ r, r ∈ determinants fin ↔ r ∈ referrers (deref graph_determinants 0))
    ∧ (NoDup (referrers (deref graph_determinants 0)) →
       collect_influencers fin
       = (λ e, {| entry := e; type := Determinant |})
           <$> referrers (deref graph_determinants 0)).
Proof.
  apply (all_referrers_declare graph_determinants PeerLib 0 []).
  intros r Hr.
  change (referrers (deref graph_determinants 0)) with [1; 2] in Hr.
  apply elem_of_cons in Hr as [-> | Hr]; [reflexivity |].
  apply list_elem_of_singleton in Hr as ->. reflexivity.
Defined.

(** ** How much the search writes *)

Lemma concat_map_length {A B} (f : A → list B) (l : list A) :
  length (concat (map f l)) = sum_list_with (λ a, length (f a)) l.
Proof.
  induction l as [|a l IH]; simpl; [done |]. by rewrite length_app, IH.
Qed.

Lemma sum_referrers_insert_other (m : Heap) i x (P : list EntryRef) :
  i ∉ P →
  sum_list_with (λ c, length (referrers (deref (<[i:=x]> m) c))) P
  = sum_list_with (λ c, length (referrers (deref m c))) P.
Proof.
  induction P as [|c P IH]; intros Hi; simpl; [done |].
  apply not_elem_of_cons in Hi as [Hne Hi].
  rewrite IH by done. unfold deref. by rewrite lookup_insert_ne.
Qed.

(** The lists of referrers of distinct entries are distinct parts of the
    heap. *)
Lemma sum_referrers_bound (g : Heap) (P : list EntryRef) :
  NoDup P →
  sum_list_with (λ c, length (referrers (deref g c))) P
  ≤ length (referrer_edges g).
Proof.
  unfold referrer_edges. rewrite concat_map_length. revert P.
  induction g as [|i x m Hi IH] using map_ind; intros P Hnd.
  - rewrite map_to_list_empty. simpl.
    induction P as [|c P IHP]; simpl; [done |].
    apply NoDup_cons in Hnd as [_ Hnd]. specialize (IHP Hnd).
    unfold deref at 1. rewrite lookup_empty. simpl. lia.
  - rewrite (map_to_list_insert m i x Hi). simpl.
    destruct (decide (i ∈ P)) as [Hin | Hout].
    + apply list_elem_of_split in Hin as (l1 & l2 & ->).
      apply NoDup_app in Hnd as (Hnd1 & Hdis & Hnd2).
      apply NoDup_cons in Hnd2 as [Hi2 Hnd2].
      assert (i ∉ l1) as Hi1.
      { intros Hin. apply (Hdis i Hin). left. }
      assert (NoDup (l1 ++ l2)) as Hnd12.
      { apply NoDup_app. split_and!; [done | | done].
        intros y Hy1 Hy2. apply (Hdis y Hy1). by right. }
      specialize (IH (l1 ++ l2) Hnd12).
      rewrite sum_list_with_app in IH. rewrite sum_list_with_app. simpl.
      rewrite !sum_referrers_insert_other by done.
      unfold deref at 2. rewrite lookup_insert_eq. simpl. lia.
    + rewrite sum_referrers_insert_other by done.
      specialize (IH P Hnd). lia.
Qed.

Lemma diagnostics_length d g c :
  length (diagnostics d g c) ≤ length (referrers (deref g c)).
Proof.
  unfold diagnostics. induction (referrers (deref g c)) as [|r rs IH]; simpl;
    [done |].
  rewrite length_app. unfold diagnostic_of at 1.
  destruct (declares d g r || carries d g r); simpl; lia.
Qed.

Lemma flat_map_diagnostics_length d g (P : list EntryRef) :
  length (flat_map (diagnostics d g) P)
  ≤ sum_list_with (λ c, length (referrers (deref g c))) P.
Proof.
  induction P as [|c P IH]; simpl; [done |].
  rewrite length_app. pose proof (diagnostics_length d g c). lia.
Qed.

(** The search writes at most as many diagnostics as the heap has
    references in its lists of referrers: the referrers of an entry are
    examined when it is popped, and no entry is popped twice. *)
Theorem diagnostics_bounded_by_edges g d root out0 :
  ∃ fin, search g d out0 root = Some fin
    ∧ length (console fin) ≤ length out0 + length (referrer_edges g).
Proof.
  destruct (search_final g d root out0) as (fin & Hrun & Hemp & HI).
  exists fin. split; [done |].
  rewrite (inv_console _ _ _ _ _ _ HI), length_app.
  pose proof (flat_map_diagnostics_length d g (popped g d out0 root)).
  pose proof (sum_referrers_bound g _ (final_NoDup _ _ _ _ _ _ HI Hemp)).
  lia.
Qed.

Lemma diagnostic_in_flat_map d g (P : list EntryRef) c r :
  c ∈ P → r ∈ referrers (deref g c) →
  declares d g r = false → carries d g r = false →
  MissingTransitivePeerDependencies d r c ∈ flat_map (diagnostics d g) P.
Proof.
  intros Hc Hr Hd Ht. apply list_elem_of_In, in_flat_map. exists c.
  split; [by apply list_elem_of_In |].
  unfold diagnostics. apply in_flat_map. exists r.
  split; [by apply list_elem_of_In |].
  unfold diagnostic_of. rewrite Hd, Ht. simpl. by left.
Qed.

(** The search writes nothing exactly when the annotation of the heap is
    consistent where the search looks: every referrer of an expanded entry
    that does not declare the traced name carries it. *)
Theorem silent_iff_consistent g d root out0 :
  ∃ fin, search g d out0 root = Some fin
    ∧ (console fin = out0
       ↔ ∀ c r, expanded g d root c → r ∈ referrers (deref g c) →
                declares d g r = false → carries d g r = true).
Proof.
  destruct (search_final g d root out0) as (fin & Hrun & Hemp & HI).
  exists fin. split; [done |].
  rewrite (inv_console _ _ _ _ _ _ HI).
  set (L := flat_map (diagnostics d g) (popped g d out0 root)).
  split.
  - intros Heq c r Hc Hr Hd.
    assert (L = []) as HL.
    { apply (app_inv_head out0). by rewrite app_nil_r. }
    destruct (carries d g r) eqn:Ht; [done |].
    apply (popped_expanded g d root out0) in Hc.
    pose proof (diagnostic_in_flat_map d g _ c r Hc Hr Hd Ht) as Hin.
    fold L in Hin. rewrite HL in Hin. inversion Hin.
  - intros Hcons. destruct L as [|m L'] eqn:HL; [by rewrite app_nil_r |].
    assert (m ∈ L) as Hm by (rewrite HL; left).
    apply final_console_only_diagnostics
      in Hm as (c & r & _ & Hc & Hr & Hd & Ht).
    apply (popped_expanded g d root out0) in Hc.
    rewrite (Hcons c r Hc Hr Hd) in Ht. discriminate.
Qed.

(** ** What the search reads of the traced dependency *)

Lemma silent_eq st st' :
  silent st = silent st'
  ↔ heap st = heap st' ∧ stack st = stack st'
    ∧ determinants st = determinants st'
    ∧ transitiveReferrers st = transitiveReferrers st'
    ∧ visitedNodes st = visitedNodes st'.
Proof.
  unfold silent. split.
  - intros [= -> -> -> -> ->]. done.
  - intros (-> & -> & -> & -> & ->). done.
Qed.

Lemma silent_push_unvisited rs st st' :
  silent st = silent st' →
  silent (push_unvisited rs st) = silent (push_unvisited rs st').
Proof.
  revert st st'. induction rs as [|r rs IH]; intros st st' Heq; simpl;
    [done |].
  apply IH. apply silent_eq in Heq as (Hh & Hs & Hd & Ht & Hv).
  rewrite Hv. case_decide; apply silent_eq; simpl; by rewrite ?Hh, ?Hs, ?Hv.
Qed.

Lemma silent_examine d d' c r st st' :
  name d = name d' → silent st = silent st' →
  silent (examine d c r st) = silent (examine d' c r st').
Proof.
  intros Hname Heq. pose proof Heq as (Hh & Hs & Hd & Ht & Hv)%silent_eq.
  unfold examine. rewrite Hname, Hh.
  destruct (hasDependency _ _).
  - apply silent_eq. simpl. by rewrite Hh, Hs, Hd, Ht, Hv.
  - case_decide; simpl; rewrite Hh; apply silent_push_unvisited;
      apply silent_eq; simpl; by rewrite Hh, Hs, Hd, Ht, Hv.
Qed.

Lemma silent_for_referrers d d' c rs st st' :
  name d = name d' → silent st = silent st' →
  silent (for_referrers d c rs st) = silent (for_referrers d' c rs st').
Proof.
  intros Hname. revert st st'.
  induction rs as [|r rs IH]; intros st st' Heq; simpl; [done |].
  by apply IH, silent_examine.
Qed.

Lemma silent_while_loop d d' fuel st st' :
  name d = name d' → silent st = silent st' →
  silent <$> while_loop d fuel st = silent <$> while_loop d' fuel st'.
Proof.
  intros Hname. revert st st'.
  induction fuel as [|fuel IH]; intros st st' Heq; simpl; [done |].
  pose proof Heq as (Hh & Hs & Hd & Ht & Hv)%silent_eq.
  rewrite <- Hs. destruct (stack st) as [|c rest]; simpl; [by rewrite Heq |].
  apply IH. unfold visit. simpl. rewrite <- Hh.
  apply silent_for_referrers; [done |].
  apply silent_eq. simpl. by rewrite Hh, Hd, Ht, Hv.
Qed.

(** Of the traced dependency the search reads the name only: for two
    dependencies of the same name (of whatever version, kind or resolved
    entry), and whatever is on the console, the search from the same entry
    of the same heap yields the same list of influencers. *)
Theorem influencers_depend_on_name_only g d d' root out out' :
  name d = name d' →
  collect_influencers <$> search g d out root
  = collect_influencers <$> search g d' out' root.
Proof.
  intros Hname.
  assert (silent <$> search g d out root = silent <$> search g d' out' root)
    as Heq.
  { unfold search. by apply silent_while_loop. }
  destruct (search g d out root) as [fin|], (search g d' out' root) as [fin'|];
    simpl in *; try done.
  apply (inj Some), silent_eq in Heq as (_ & _ & Hd & Ht & _).
  unfold collect_influencers. by rewrite Hd, Ht.
Qed.

(** PeerLib as Root declares it and as another entry declares it. *)
Lemma influencers_depend_on_name_only_witness :
  name PeerLib = name PeerLib_elsewhere
  ∧ collect_influencers <$> search graph_sibling PeerLib [] 0
    = collect_influencers
        <$> search graph_sibling PeerLib_elsewhere
              [DependencyToTrace PeerLib_elsewhere] 0.
Proof.
  split; [reflexivity |].
  apply (influencers_depend_on_name_only graph_sibling PeerLib
           PeerLib_elsewhere 0 [] [DependencyToTrace PeerLib_elsewhere]).
  reflexivity.
Defined.

(** ** What the component shows *)

Lemma filter_type_same (ty : DependencyType) (l : list EntryRef) :
  filter (λ inf, type inf = ty) ((λ e, {| entry := e; type := ty |}) <$> l)
  = (λ e, {| entry := e; type := ty |}) <$> l.
Proof.
  induction l as [|e l IH]; [done |].
  rewrite fmap_cons, filter_cons_True by done. by rewrite IH.
Qed.

Lemma filter_type_other (ty ty' : DependencyType) (l : list EntryRef) :
  ty ≠ ty' →
  filter (λ inf, type inf = ty) ((λ e, {| entry := e; type := ty' |}) <$> l)
  = [].
Proof.
  intros Hne. induction l as [|e l IH]; [done |].
  rewrite fmap_cons, filter_cons_False; [done | simpl; congruence].
Qed.

Lemma shown_determinants st :
  entry <$> filter (λ inf, type inf = Determinant) (collect_influencers st)
  = determinants st.
Proof.
  unfold collect_influencers.
  rewrite filter_app, filter_type_same, filter_type_other, app_nil_r by done.
  rewrite <- list_fmap_compose. apply list_fmap_id.
Qed.

Lemma shown_transitiveReferrers st :
  entry <$> filter (λ inf, type inf = TransitiveReferrer)
              (collect_influencers st)
  = transitiveReferrers st.
Proof.
  unfold collect_influencers.
  rewrite filter_app, filter_type_same, filter_type_other by done. simpl.
  rewrite <- list_fmap_compose. apply list_fmap_id.
Qed.

Lemma peer_dependency_counted (d : LockfileDependency) deps :
  d ∈ deps → dependencyType d = PEER_DEPENDENCY →
  length (filter (λ dep, dependencyType dep = PEER_DEPENDENCY) deps) ≠ 0.
Proof.
  intros Hin Hpeer.
  assert (d ∈ filter (λ dep, dependencyType dep = PEER_DEPENDENCY) deps)
    as Hf by (by apply list_elem_of_filter).
  destruct (filter _ deps); [inversion Hf | done].
Qed.

(** After a click that selects a peer dependency of the selected entry for
    inspection, the two lists on display are the two sets of the search for
    it, each in its order of insertion: the list stored by the handler is
    taken apart again by the two filters of [renderPeerDependencies]. *)
Theorem peer_click_shows_both_sets d app selected :
  selectedEntry app = Some selected →
  d ∈ dependencies (deref (graph app) selected) →
  dependencyType d = PEER_DEPENDENCY →
  same_as_inspected (inspectDependency app) d = false →
  ∃ app' fin,
    selectResolvedEntry d app = Some app'
    ∧ search (graph app) d (output app ++ [DependencyToTrace d]) selected
      = Some fin
    ∧ renderPeerDependencies app'
      = InfluencerList (determinants fin) (transitiveReferrers fin).
Proof.
  intros Hsel Hin Hpeer Hsame.
  destruct (search_final (graph app) d selected
              (output app ++ [DependencyToTrace d]))
    as (fin & Hrun & _ & HI).
  unfold selectResolvedEntry. rewrite Hsame, Hsel.
  rewrite decide_False by (intros Hne; by apply Hne). simpl. rewrite Hrun.
  eexists _, fin. split_and!; [done | done |].
  unfold renderPeerDependencies. simpl. rewrite Hsel.
  rewrite (inv_heap _ _ _ _ _ _ HI).
  rewrite decide_False by (by eapply peer_dependency_counted).
  rewrite decide_False by (intros Hne; by apply Hne).
  by rewrite shown_determinants, shown_transitiveReferrers.
Qed.

(** The click on PeerLib with Root selected in [graph_sibling]. *)
Lemma peer_click_shows_both_sets_witness :
  ∃ app' fin,
    selectResolvedEntry PeerLib (app_start graph_sibling) = Some app'
    ∧ search (graph (app_start graph_sibling)) PeerLib
        (output (app_start graph_sibling) ++ [DependencyToTrace PeerLib]) 0
      = Some fin
    ∧ renderPeerDependencies app'
      = InfluencerList (determinants fin) (transitiveReferrers fin).
Proof.
  apply (peer_click_shows_both_sets PeerLib (app_start graph_sibling) 0).
  - reflexivity.
  - vm_compute. left.
  - reflexivity.
  - reflexivity.
Defined.

(** A click that selects a dependency that is not a peer dependency for
    inspection keeps the stored list of influencers but takes it off the
    display: [renderPeerDependencies] then shows no list of influencers. *)
Theorem non_peer_click_hides_influencers d app :
  dependencyType d ≠ PEER_DEPENDENCY →
  same_as_inspected (inspectDependency app) d = false →
  ∃ app', selectResolvedEntry d app = Some app'
    ∧ influencers app' = influencers app
    ∧ ∀ ds ts, renderPeerDependencies app' ≠ InfluencerList ds ts.
Proof.
  intros Hkind Hsame. unfold selectResolvedEntry. rewrite Hsame.
  destruct (selectedEntry app) as [selected|] eqn:Hsel.
  - rewrite decide_True by done. eexists. split_and!; [done | done |].
    intros ds ts. unfold renderPeerDependencies. simpl. rewrite Hsel.
    case_decide; [done |]. by rewrite decide_True.
  - eexists. split_and!; [done | done |].
    intros ds ts. unfold renderPeerDependencies. by rewrite Hsel.
Qed.

(** The click on lodash after the influencers of PeerLib have been
    stored. *)
Lemma non_peer_click_hides_influencers_witness :
  influencers app_after_PeerLib ≠ []
  ∧ ∃ app', selectResolvedEntry lodash app_after_PeerLib = Some app'
      ∧ influencers app' = influencers app_after_PeerLib
      ∧ ∀ ds ts, renderPeerDependencies app' ≠ InfluencerList ds ts.
Proof.
  split; [vm_compute; discriminate |].
  apply (non_peer_click_hides_influencers lodash app_after_PeerLib).
  - discriminate.
  - reflexivity.
Defined.

(** ** Clicks in sequence *)

(** With an entry selected, a click on a dependency leaves it as the one a
    further click takes for inspected already; the further click then
    navigates to the resolved entry of the dependency, or reports that there
    is none, and changes neither the inspected dependency nor the stored
    influencers. *)
Theorem second_click_navigates d app selected :
  selectedEntry app = Some selected →
  ∃ app1 app2,
    selectResolvedEntry d app = Some app1
    ∧ same_as_inspected (inspectDependency app1) d = true
    ∧ selectResolvedEntry d app1 = Some app2
    ∧ inspectDependency app2 = inspectDependency app1
    ∧ influencers app2 = influencers app1
    ∧ match resolvedEntry d with
      | Some e => dispatched app2 = dispatched app1 ++ [pushToStack e]
                  ∧ output app2 = output app1
      | None => dispatched app2 = dispatched app1
                ∧ output app2 = output app1 ++ [NoResolvedEntry d]
      end.
Proof.
  intros Hsel.
  destruct (selectResolvedEntry_total d app) as [app1 Happ1].
  assert (same_as_inspected (inspectDependency app1) d = true) as Hsame.
  { revert Happ1. unfold selectResolvedEntry.
    destruct (same_as_inspected (inspectDependency app) d) eqn:Hs.
    - destruct (resolvedEntry d); by intros [= <-].
    - rewrite Hsel. case_decide.
      + intros [= <-]. simpl. by apply bool_decide_eq_true.
      + simpl. destruct (search _ _ _ _); [| done].
        intros [= <-]. simpl. by apply bool_decide_eq_true. }
  exists app1. unfold selectResolvedEntry at 2. rewrite Hsame.
  destruct (resolvedEntry d); eexists; split_and!; done.
Qed.

(** Two clicks on the regular dependency lodash of Root. *)
Lemma second_click_navigates_witness :
  ∃ app1 app2,
    selectResolvedEntry lodash (app_start graph_XY) = Some app1
    ∧ same_as_inspected (inspectDependency app1) lodash = true
    ∧ selectResolvedEntry lodash app1 = Some app2
    ∧ inspectDependency app2 = inspectDependency app1
    ∧ influencers app2 = influencers app1
    ∧ match resolvedEntry lodash with
      | Some e => dispatched app2 = dispatched app1 ++ [pushToStack e]
                  ∧ output app2 = output app1
      | None => dispatched app2 = dispatched app1
                ∧ output app2 = output app1 ++ [NoResolvedEntry lodash]
      end.
Proof.
  apply (second_click_navigates lodash (app_start graph_XY) 0). reflexivity.
Defined.

(** When the store selects another entry, the effect clears the inspected
    dependency and leaves the stored influencers: no list of influencers is
    shown, and the next click on any dependency selects it for inspection
    and dispatches nothing. *)
Theorem new_selection_resets_inspection app selected :
  Some selected ≠ selectedEntry app →
  ∃ app', handle (Selected (Some selected)) app = Some app'
    ∧ selectedEntry app' = Some selected
    ∧ inspectDependency app' = None
    ∧ influencers app' = influencers app
    ∧ (∀ ds ts, renderPeerDependencies app' ≠ InfluencerList ds ts)
    ∧ ∀ d, ∃ app'', selectResolvedEntry d app' = Some app''
           ∧ inspectDependency app'' = Some d
           ∧ dispatched app'' = dispatched app'.
Proof.
  intros Hnew. unfold handle. rewrite decide_False by done.
  eexists. split_and!; [done | done | done | done | |].
  - intros ds ts. unfold renderPeerDependencies. simpl. by case_decide.
  - intros d. unfold selectResolvedEntry. simpl. case_decide.
    + by eexists.
    + set (out := output app ++ [DependencyToTrace d]).
      set (h := graph app).
      destruct (search_final h d selected out) as (fin & -> & _).
      by eexists.
Qed.

(** The store selects X while Root is selected and PeerLib inspected. *)
Lemma new_selection_resets_inspection_witness :
  inspectDependency app_after_PeerLib = Some PeerLib
  ∧ ∃ app', handle (Selected (Some 1)) app_after_PeerLib = Some app'
      ∧ selectedEntry app' = Some 1
      ∧ inspectDependency app' = None
      ∧ influencers app' = influencers app_after_PeerLib
      ∧ (∀ ds ts, renderPeerDependencies app' ≠ InfluencerList ds ts)
      ∧ ∀ d, ∃ app'', selectResolvedEntry d app' = Some app''
             ∧ inspectDependency app'' = Some d
             ∧ dispatched app'' = dispatched app'.
Proof.
  split; [vm_compute; reflexivity |].
  apply (new_selection_resets_inspection app_after_PeerLib 1).
  vm_compute. discriminate.
Defined.

(** ** The stored list in every state of the component *)






(** Root is selected, PeerLib is clicked, the store selects Y, lodash is
    clicked twice, the store selects Root again and PeerLib is clicked: the
    lists of PeerLib for Root are on display. *)
Example session_in_graph_XY :
  renderPeerDependencies
    <$> handle_all
          [ ClickDependency PeerLib; Selected (Some 2);
            ClickDependency lodash; ClickDependency lodash;
            Selected (Some 0); ClickDependency PeerLib ]
          (mount graph_XY (Some 0))
  = Some (InfluencerList [1] [2]).
Proof. vm_compute. reflexivity. Qed.
